(** * The generic scheduler: filter, prioritize, select

    A shallow embedding of plugin/pkg/scheduler/generic_scheduler.go
    ([FitError.Error], [Schedule], [selectHost], [findNodesThatFit],
    [PrioritizeNodes], [getBestHosts], [EqualPriority]) and the properties
    of its specification.

    Conventions of the embedding.
    - A Go result pair [(v, err)] is a Rocq pair whose second component is
      an [option error]; [None] is Go's [nil].
    - A Go [map] is a [gmap], a [sets.String] is a [gset string].  Go leaves
      the order in which [range] visits a map unspecified: every [range]
      over a map takes a function that permutes the map's entries, and the
      theorems hold for all of them.
    - Go's [int] is 64 bits wide; arithmetic on scores wraps around.
    - The collaborators (fit predicates, priority functions, extenders,
      listers) are functions of their arguments.  Every function of the
      scheduler returns, next to its Go result, the list of collaborator
      calls it made, so that "is invoked" and "is passed" can be stated.
    - The pod, and the lists an extender answers without an error, are
      never [nil] pointers; a node lister may be [nil] where the source
      tests for it.
    - glog output is not modelled. *)

From Stdlib Require Import ZArith Lia.
From stdpp Require Import base gmap sets list strings sorting.

Set Warnings "-register-all".

(** ** pkg/api: the parts of the object model the scheduler reads *)

Module api.

Record Pod := { PodName : string }.

Record Node := { Name : string }.

Record NodeList := { Items : list Node }.

End api.
Export api.

(** ** pkg/util/sets *)

Module sets.

(** [s.Insert(item)] *)
Definition Insert (s : gset string) (item : string) : gset string :=
  {[item]} ∪ s.

(** Modelled from the spec: [sets.String.PopAny] (pkg/util/sets) is not
    under src/.  The spec calls its use in [FitError.Error] an "arbitrary
    pick from one candidate's reason set"; the call site shows that it
    yields an element and a found flag.  As its name says, it pops: the
    element it yields is deleted from the receiver, and an empty set
    yields the zero string and [false].  [pick] is the order in which the
    [range] inside visits the set. *)
Definition PopAny (pick : list string → list string) (s : gset string)
  : (string * bool) * gset string :=
  match pick (elements s) with
  | key :: _ => ((key, true), s ∖ {[key]})
  | [] => ((EmptyString, false), s)
  end.

End sets.

(** ** Errors *)

Record InsufficientResourceError := { ResourceName : string }.

Record FitError := {
  Pod : api.Pod;
  FailedPredicates : gmap string (gset string)
}.

Inductive error :=
| ErrNoNodesAvailable
    (* the package variable: "no nodes available to schedule pods" *)
| ErrEmptyPriorityList
    (* fmt.Errorf("empty priorityList") *)
| ErrInsufficientResource (e : InsufficientResourceError)
    (* a *predicates.InsufficientResourceError *)
| ErrUnexpectedFit (e : InsufficientResourceError)
    (* fmt.Errorf("got InsufficientResourceError: %v, but also fit='true' ...", e) *)
| ErrFit (f : FitError)
    (* a *FitError *)
| ErrAggregate (errs : list error)
    (* what errors.NewAggregate builds from a non-empty list *)
| ErrOther (msg : string).
    (* any other error of a collaborator *)

(** Modelled from the spec: [errors.NewAggregate] (pkg/util/errors) is not
    under src/; it is "the aggregated error" of the priority functions'
    errors, and [nil] for an empty list. *)
Definition NewAggregate (errs : list error) : option error :=
  match errs with
  | [] => None
  | _ => Some (ErrAggregate errs)
  end.

(** ** FitError.Error *)

(** The body of the [range f.FailedPredicates] loop.  [reason] and the
    failure map are the state; the sets in the map are shared with the
    [FitError], so what [PopAny] deletes is deleted there. *)
Definition ErrorStep (pick : list string → list string)
    (st : string * gmap string (gset string)) (entry : string * gset string)
  : string * gmap string (gset string) :=
  let '(reason, failed) := st in
  let node := entry.1 in
  if (String.length reason =? 0)%nat then
    match failed !! node with
    | Some predicateList =>
        let '((reason', _), predicateList') := sets.PopAny pick predicateList in
        (reason', <[node := predicateList']> failed)
    | None => (reason, failed)
    end
  else (reason, failed).

(** [func (f *FitError) Error() string]: the string, and the [FitError] as
    the call leaves it.  [order] is the order of the [range] over the
    failure map. *)
Definition Error
    (order : list (string * gset string) → list (string * gset string))
    (pick : list string → list string) (f : FitError) : string * FitError :=
  let '(reason, failed) :=
    foldl (ErrorStep pick) (EmptyString, FailedPredicates f)
          (order (map_to_list (FailedPredicates f))) in
  ("Failed for reason " +:+ reason +:+ " and possibly others",
   {| Pod := Pod f; FailedPredicates := failed |}).

(** ** plugin/pkg/scheduler/api and plugin/pkg/scheduler/algorithm *)

Module schedulerapi.

Record HostPriority := { Host : string; Score : Z }.

Definition HostPriorityList := list HostPriority.

(** Modelled from the spec: the [sort.Interface] methods of
    [HostPriorityList] are declared in plugin/pkg/scheduler/api, not under
    src/.  The Selector "sorts the ranking by score descending", through
    [sort.Reverse], so [Less] orders by score ascending; entries of equal
    score are ordered by host name, which makes the order total. *)
Definition Less (a b : HostPriority) : bool :=
  if (Score a =? Score b)%Z then String.ltb (Host a) (Host b)
  else (Score a <? Score b)%Z.

End schedulerapi.
Export schedulerapi.

Module algorithm.

(** [NodeLister]: an interface with one method, [List]. *)
Record NodeLister := { List : NodeList * option error }.

(** Modelled from the spec: [algorithm.FakeNodeLister] is declared in
    plugin/pkg/scheduler/algorithm, not under src/.  It turns a node list
    into the lister of that list; [Schedule] uses it to "run the Priority
    Stage over survivors". *)
Definition FakeNodeLister (nodes : NodeList) : NodeLister :=
  {| List := (nodes, None) |}.

(** [type FitPredicate func(pod, existingPods, node) (bool, error)] *)
Definition FitPredicate : Type :=
  api.Pod → list api.Pod → string → bool * option error.

Section WithPodLister.

(** [PodLister] is only handed on to collaborators. *)
Context {PodLister : Type}.

(** [type PriorityFunction func(pod, machinesToPods, podLister,
    nodeLister) (HostPriorityList, error)]; a [nil] lister is [None]. *)
Definition PriorityFunction : Type :=
  api.Pod → gmap string (list api.Pod) → PodLister → option NodeLister →
  HostPriorityList * option error.

Record PriorityConfig := {
  Function : PriorityFunction;
  Weight : Z
}.

End WithPodLister.
Arguments PriorityFunction : clear implicits.
Arguments PriorityConfig : clear implicits.

Record SchedulerExtender := {
  Filter : api.Pod → NodeList → NodeList * option error;
  Prioritize : api.Pod → NodeList → HostPriorityList * Z * option error
}.

End algorithm.
Export algorithm.

(** ** Machine integers *)

(** Go's [int] on the 64-bit platforms the scheduler runs on. *)
Definition wrap64 (z : Z) : Z :=
  ((z + 2 ^ 63) mod 2 ^ 64 - 2 ^ 63)%Z.

(** ** Calls and the call log *)

(** A call of a collaborator with the arguments that matter.  Extenders and
    priority configs are named by their position in the registry. *)
Inductive Call :=
| PredicateCall (name : string) (pod : api.Pod) (existing : list api.Pod) (node : string)
| FilterCall (extender : nat) (pod : api.Pod) (nodes : NodeList)
| PriorityCall (config : nat) (pod : api.Pod) (lister : option NodeLister)
| PrioritizeCall (extender : nat) (pod : api.Pod) (nodes : NodeList).

(** What a Go function does: it returns its results or it panics. *)
Inductive go (A : Type) :=
| Returns (a : A)
| Panics.
Arguments Returns {A} a.
Arguments Panics {A}.

(** A computation: the calls made, in order, and the outcome. *)
Definition M (A : Type) : Type := list Call * go A.

#[export] Instance M_ret : MRet M := λ A a, ([], Returns a).

#[export] Instance M_bind : MBind M := λ A B k m,
  match m with
  | (log, Returns a) => let '(log', r) := k a in (log ++ log', r)
  | (log, Panics) => (log, Panics)
  end.

Definition panic {A} : M A := ([], Panics).

(** [call c v]: the call [c] is made and yields [v]. *)
Definition call {A} (c : Call) (v : A) : M A := ([c], Returns v).

Definition calls {A} (m : M A) : list Call := m.1.
Definition outcome {A} (m : M A) : go A := m.2.

(** ** Filter Stage: findNodesThatFit *)

(** How the [range predicateFuncs] loop of one node ends: it runs out or
    breaks, with the [fits] flag and the failure map as they then are, or
    the whole function returns an error from inside it. *)
Inductive PredicateLoop :=
| LoopEnds (fits : bool) (failedPredicateMap : gmap string (gset string))
| LoopReturns (err : error).

(** Lines 131-141: the error a predicate's result makes the function
    return, if any. *)
Definition predicateFailure (fit : bool) (err : option error) : option error :=
  match err with
  | Some (ErrInsufficientResource e) =>
      if fit then Some (ErrUnexpectedFit e) else None
  | Some e => Some e
  | None => None
  end.

(** Lines 143-152: the failure recorded for [node] when the predicate
    [name] answers [err] and does not fit. *)
Definition recordFailure (failedPredicateMap : gmap string (gset string))
    (node name : string) (err : option error) : gmap string (gset string) :=
  let failedPredicateMap :=
    match failedPredicateMap !! node with
    | Some _ => failedPredicateMap
    | None => <[node := ∅]> failedPredicateMap
    end in
  match err with
  | Some (ErrInsufficientResource re) =>
      <[node := sets.Insert (default ∅ (failedPredicateMap !! node)) (ResourceName re)]>
        failedPredicateMap
  | _ =>
      <[node := sets.Insert (default ∅ (failedPredicateMap !! node)) name]>
        failedPredicateMap
  end.

(** The loop [for name, predicate := range predicateFuncs] for one node,
    over the entries in the order the [range] yields them. *)
Fixpoint rangePredicateFuncs (pod : api.Pod)
    (machineToPods : gmap string (list api.Pod)) (node : Node)
    (failedPredicateMap : gmap string (gset string))
    (entries : list (string * FitPredicate)) : M PredicateLoop :=
  match entries with
  | [] => mret (LoopEnds true failedPredicateMap)
  | (name, predicate) :: entries =>
      let existing := default [] (machineToPods !! Name node) in
      '(fit, err) ← call (PredicateCall name pod existing (Name node))
                         (predicate pod existing (Name node));
      match predicateFailure fit err with
      | Some err => mret (LoopReturns err)
      | None =>
          if negb fit then
            mret (LoopEnds false
                    (recordFailure failedPredicateMap (Name node) name err))
          else
            rangePredicateFuncs pod machineToPods node failedPredicateMap entries
      end
  end.

(** The loop [for _, node := range nodes.Items] (lines 127-158), from the
    [i]-th node on.  [order i] is the order in which the [range] over
    [predicateFuncs] for the [i]-th node yields the entries.  The result is
    [filtered] and the failure map, or the error returned from inside. *)
Fixpoint rangeNodes (order : nat → list (string * FitPredicate) → list (string * FitPredicate))
    (pod : api.Pod) (machineToPods : gmap string (list api.Pod))
    (predicateFuncs : gmap string FitPredicate)
    (i : nat) (nodes : list Node)
    (filtered : list Node) (failedPredicateMap : gmap string (gset string))
  : M (list Node * gmap string (gset string) + error) :=
  match nodes with
  | [] => mret (inl (filtered, failedPredicateMap))
  | node :: nodes =>
      r ← rangePredicateFuncs pod machineToPods node failedPredicateMap
            (order i (map_to_list predicateFuncs));
      match r with
      | LoopReturns err => mret (inr err)
      | LoopEnds fits failedPredicateMap =>
          let filtered := if fits then filtered ++ [node] else filtered in
          rangeNodes order pod machineToPods predicateFuncs (S i) nodes
                     filtered failedPredicateMap
      end
  end.

(** The loop [for _, extender := range extenders] (lines 160-169), from the
    [i]-th extender on: [filtered] as the loop leaves it, or the error
    returned from inside. *)
Fixpoint rangeExtenders (pod : api.Pod) (i : nat)
    (extenders : list SchedulerExtender) (filtered : list Node)
  : M (list Node + error) :=
  match extenders with
  | [] => mret (inl filtered)
  | extender :: extenders =>
      '(filteredList, err) ← call (FilterCall i pod {| Items := filtered |})
                                  (Filter extender pod {| Items := filtered |});
      match err with
      | Some err => mret (inr err)
      | None =>
          let filtered := Items filteredList in
          if (length filtered =? 0)%nat then mret (inl filtered)
          else rangeExtenders pod (S i) extenders filtered
      end
  end.

Definition findNodesThatFit
    (order : nat → list (string * FitPredicate) → list (string * FitPredicate))
    (pod : api.Pod) (machineToPods : gmap string (list api.Pod))
    (predicateFuncs : gmap string FitPredicate) (nodes : NodeList)
    (extenders : list SchedulerExtender)
  : M (NodeList * gmap string (gset string) * option error) :=
  r ← rangeNodes order pod machineToPods predicateFuncs 0 (Items nodes) [] ∅;
  match r with
  | inr err => mret ({| Items := [] |}, ∅, Some err)
  | inl (filtered, failedPredicateMap) =>
      if (0 <? length filtered)%nat && negb (length extenders =? 0)%nat then
        r ← rangeExtenders pod 0 extenders filtered;
        match r with
        | inr err => mret ({| Items := [] |}, ∅, Some err)
        | inl filtered => mret ({| Items := filtered |}, failedPredicateMap, None)
        end
      else mret ({| Items := filtered |}, failedPredicateMap, None)
  end.

(** ** Priority Stage: EqualPriority and PrioritizeNodes *)

Section PriorityStage.

Context {PodLister : Type}.

(** A [nil] lister makes the call of [List] panic. *)
Definition EqualPriority (_ : api.Pod)
    (machinesToPods : gmap string (list api.Pod)) (podLister : PodLister)
    (nodeLister : option NodeLister) : M (HostPriorityList * option error) :=
  match nodeLister with
  | None => panic
  | Some nodeLister =>
      let '(nodes, err) := List nodeLister in
      match err with
      | Some err => mret ([], Some err)
      | None =>
          mret ((λ node, {| Host := Name node; Score := 1 |}) <$> Items nodes,
                None)
      end
  end.

(** [combinedScores[host] += score * weight] for every entry of a
    prioritized list (lines 215-218 and 244-247); a host without an entry
    counts from zero. *)
Definition addScores (weight : Z) (combinedScores : gmap string Z)
    (prioritizedList : HostPriorityList) : gmap string Z :=
  foldl (λ combinedScores entry,
           let host := Host entry in
           let score := Score entry in
           <[host := wrap64 (default 0%Z (combinedScores !! host)
                             + wrap64 (score * weight))]> combinedScores)
        combinedScores prioritizedList.

(** The loop of lines 196-221 from the [i]-th config on: one goroutine is
    launched for every config of nonzero weight.  The result lists, in
    launch order, the weight of each goroutine and what its priority
    function answers. *)
Fixpoint launchPriorities (pod : api.Pod)
    (machinesToPods : gmap string (list api.Pod)) (podLister : PodLister)
    (nodeLister : option NodeLister) (i : nat)
    (priorityConfigs : list (PriorityConfig PodLister))
  : M (list (Z * (HostPriorityList * option error))) :=
  match priorityConfigs with
  | [] => mret []
  | priorityConfig :: priorityConfigs =>
      if (Weight priorityConfig =? 0)%Z then
        launchPriorities pod machinesToPods podLister nodeLister (S i)
                         priorityConfigs
      else
        r ← call (PriorityCall i pod nodeLister)
                 (Function priorityConfig pod machinesToPods podLister
                           nodeLister);
        rs ← launchPriorities pod machinesToPods podLister nodeLister (S i)
                              priorityConfigs;
        mret ((Weight priorityConfig, r) :: rs)
  end.

(** [errs] as line 222 reads it.  The goroutines run concurrently with
    their launcher, and line 222 comes before [wg.Wait()]: [errs] then
    holds the errors of the goroutines that have already finished.
    [finished] lists them, by launch position, in the order they
    finished. *)
Definition errsAtCheck (finished : list nat)
    (tasks : list (Z * (HostPriorityList * option error))) : list error :=
  omap (λ j, match tasks !! j with
             | Some (_, (_, Some err)) => Some err
             | _ => None
             end) finished.

(** [combinedScores] once [wg.Wait()] has returned: every goroutine whose
    priority function answered without an error has added its scores. *)
Definition joinPriorities
    (tasks : list (Z * (HostPriorityList * option error))) : gmap string Z :=
  foldl (λ combinedScores task,
           match task with
           | (weight, (prioritizedList, None)) =>
               addScores weight combinedScores prioritizedList
           | (_, (_, Some _)) => combinedScores
           end) ∅ tasks.

(** The loop of lines 234-250 from the [i]-th extender on: every extender
    is asked to prioritize [nodes]. *)
Fixpoint launchExtenders (pod : api.Pod) (nodes : NodeList) (i : nat)
    (extenders : list SchedulerExtender)
  : M (list (HostPriorityList * Z * option error)) :=
  match extenders with
  | [] => mret []
  | ext :: extenders =>
      r ← call (PrioritizeCall i pod nodes) (Prioritize ext pod nodes);
      rs ← launchExtenders pod nodes (S i) extenders;
      mret (r :: rs)
  end.

(** [combinedScores] after the second [wg.Wait()]: an extender that
    answered with an error has added nothing. *)
Definition joinExtenders (combinedScores : gmap string Z)
    (answers : list (HostPriorityList * Z * option error)) : gmap string Z :=
  foldl (λ combinedScores answer,
           match answer with
           | (prioritizedList, weight, None) =>
               addScores weight combinedScores prioritizedList
           | (_, _, Some _) => combinedScores
           end) combinedScores answers.

(** [finished] is the state of the first wave of goroutines when line 222
    reads [errs]; [scoreOrder] the order of the [range] over
    [combinedScores].  The calls of concurrent goroutines are logged in
    launch order. *)
Definition PrioritizeNodes (finished : list nat)
    (scoreOrder : list (string * Z) → list (string * Z))
    (pod : api.Pod) (machinesToPods : gmap string (list api.Pod))
    (podLister : PodLister) (priorityConfigs : list (PriorityConfig PodLister))
    (nodeLister : option NodeLister) (extenders : list SchedulerExtender)
  : M (HostPriorityList * option error) :=
  if (length priorityConfigs =? 0)%nat && (length extenders =? 0)%nat then
    EqualPriority pod machinesToPods podLister nodeLister
  else
    tasks ← launchPriorities pod machinesToPods podLister nodeLister 0
                             priorityConfigs;
    let errs := errsAtCheck finished tasks in
    if negb (length errs =? 0)%nat then mret ([], NewAggregate errs)
    else
      let combinedScores := joinPriorities tasks in
      r ← (if negb (length extenders =? 0)%nat then
             match nodeLister with
             | Some nodeLister =>
                 let '(nodes, err) := List nodeLister in
                 match err with
                 | Some err => mret (inr err)
                 | None =>
                     answers ← launchExtenders pod nodes 0 extenders;
                     mret (inl (joinExtenders combinedScores answers))
                 end
             | None => mret (inl combinedScores)
             end
           else mret (inl combinedScores));
      match r with
      | inr err => mret ([], Some err)
      | inl combinedScores =>
          mret ((λ '(host, score), {| Host := host; Score := score |})
                  <$> scoreOrder (map_to_list combinedScores),
                None)
      end.

End PriorityStage.

(** ** Selector: getBestHosts and selectHost *)

(** The loop of [getBestHosts]: the hosts of the entries up to the first
    one whose score differs from [score0], the score of [list[0]].  (The
    parameter [list] of the source is [entries] here.) *)
Fixpoint bestHostsFrom (score0 : Z) (entries : HostPriorityList) : list string :=
  match entries with
  | [] => []
  | hostEntry :: entries =>
      if (Score hostEntry =? score0)%Z
      then Host hostEntry :: bestHostsFrom score0 entries
      else []
  end.

Definition getBestHosts (entries : HostPriorityList) : list string :=
  match entries with
  | [] => []
  | first :: _ => bestHostsFrom (Score first) entries
  end.

(** [sort.Reverse] swaps the arguments of [Less]: in the sorted list an
    entry stays before another one when it is not less than it. *)
Definition staysBefore (a b : HostPriority) : Prop := Less a b = false.

#[export] Instance staysBefore_dec : RelDecision staysBefore :=
  λ a b, decide (Less a b = false).

(** [sort.Sort(sort.Reverse(priorityList))] *)
Definition sortReverse (priorityList : HostPriorityList) : HostPriorityList :=
  merge_sort staysBefore priorityList.

(** Descending by score: the order [sortReverse] establishes, seen on the
    scores alone. *)
Definition scoreDescending (a b : HostPriority) : Prop :=
  (Score b ≤ Score a)%Z.

(** [random] is the value [g.random.Int()] yields.  Go's [%] truncates
    towards zero ([Z.rem]), and indexing out of range panics, as the
    division by zero would. *)
Definition selectHost (random : Z) (priorityList : HostPriorityList)
  : M (string * option error) :=
  if (length priorityList =? 0)%nat then
    mret (EmptyString, Some ErrEmptyPriorityList)
  else
    let priorityList := sortReverse priorityList in
    let hosts := getBestHosts priorityList in
    if (length hosts =? 0)%nat then panic
    else
      let ix := Z.rem random (Z.of_nat (length hosts)) in
      if (ix <? 0)%Z then panic
      else
        match hosts !! Z.to_nat ix with
        | Some host => mret (host, None)
        | None => panic
        end.

(** ** The scheduling algorithm *)

(** What one scheduling attempt leaves open: the orders of its [range]s
    over maps and the interleaving of the priority goroutines with the
    check of line 222. *)
Record Nondeterminism := {
  predicateOrder : nat → list (string * FitPredicate) → list (string * FitPredicate);
  finishedAtCheck : list nat;
  scoreOrder : list (string * Z) → list (string * Z)
}.

Section Scheduler.

Context {PodLister : Type}.

(** [predicates.MapPodsToMachines] is not under src/: the placement map
    built from the pod lister, or an error. *)
Variable MapPodsToMachines :
  PodLister → gmap string (list api.Pod) * option error.

(** [random] is the value the next [g.random.Int()] yields; the lock
    around the random source guards nothing a single attempt can see. *)
Record genericScheduler := {
  predicates : gmap string FitPredicate;
  prioritizers : list (PriorityConfig PodLister);
  extenders : list SchedulerExtender;
  pods : PodLister;
  random : Z
}.

Definition Schedule (nd : Nondeterminism) (g : genericScheduler)
    (pod : api.Pod) (nodeLister : NodeLister) : M (string * option error) :=
  let '(nodes, err) := List nodeLister in
  match err with
  | Some err => mret (EmptyString, Some err)
  | None =>
      if (length (Items nodes) =? 0)%nat then
        mret (EmptyString, Some ErrNoNodesAvailable)
      else
        let '(machinesToPods, err) := MapPodsToMachines (pods g) in
        match err with
        | Some err => mret (EmptyString, Some err)
        | None =>
            '(filteredNodes, failedPredicateMap, err) ←
              findNodesThatFit (predicateOrder nd) pod machinesToPods
                               (predicates g) nodes (extenders g);
            match err with
            | Some err => mret (EmptyString, Some err)
            | None =>
                if (length (Items filteredNodes) =? 0)%nat then
                  mret (EmptyString,
                        Some (ErrFit {| Pod := pod;
                                        FailedPredicates := failedPredicateMap |}))
                else
                  '(priorityList, err) ←
                    PrioritizeNodes (finishedAtCheck nd) (scoreOrder nd) pod
                                    machinesToPods (pods g) (prioritizers g)
                                    (Some (FakeNodeLister filteredNodes))
                                    (extenders g);
                  match err with
                  | Some err => mret (EmptyString, Some err)
                  | None => selectHost (random g) priorityList
                  end
            end
        end
  end.

End Scheduler.

(** ** Vocabulary of the properties *)

(** A [range] visits every entry of the map once, in some order. *)
Definition rangeOrder {A} (order : list A → list A) : Prop :=
  ∀ entries, order entries ≡ₚ entries.

(** The reason lines 147-152 record when the predicate [name] rejects a
    node with the answer [err]. *)
Definition recordedReason (name : string) (err : option error) : string :=
  match err with
  | Some (ErrInsufficientResource re) => ResourceName re
  | _ => name
  end.

(** Every registered predicate fits the node named [node]. *)
Definition fitsAll (pod : api.Pod) (machineToPods : gmap string (list api.Pod))
    (predicateFuncs : gmap string FitPredicate) (node : string) : Prop :=
  ∀ name predicate,
    predicateFuncs !! name = Some predicate →
    predicate pod (default [] (machineToPods !! node)) node = (true, None).

(** The calls of an extender's [Prioritize]. *)
Definition isPrioritizeCall (c : Call) : bool :=
  match c with
  | PrioritizeCall _ _ _ => true
  | _ => false
  end.

(** The answer of a predicate that finds too little cpu. *)
Definition noCpuErr : option error :=
  Some (ErrInsufficientResource {| ResourceName := "cpu" |}).

(** Every entry fits [node] or finds too little cpu on it, and one entry
    does the latter. *)
Definition cpuOnly (pod : api.Pod) (machineToPods : gmap string (list api.Pod))
    (entries : list (string * FitPredicate)) (node : Node) : Prop :=
  let existing := default [] (machineToPods !! Name node) in
  (∀ entry, entry ∈ entries →
     entry.2 pod existing (Name node) = (true, None) ∨
     entry.2 pod existing (Name node) = (false, noCpuErr)) ∧
  (∃ entry, entry ∈ entries ∧
     entry.2 pod existing (Name node) = (false, noCpuErr)).

(** [fitsAll], computed: every registered predicate answers [(true, nil)]
    for the node named [node]. *)
Definition fitsAllb (pod : api.Pod) (machineToPods : gmap string (list api.Pod))
    (predicateFuncs : gmap string FitPredicate) (node : string) : bool :=
  forallb (λ entry : string * FitPredicate,
             match entry.2 pod (default [] (machineToPods !! node)) node with
             | (true, None) => true
             | _ => false
             end) (map_to_list predicateFuncs).

(** Some registered predicate rejects the node named [node] and has
    [reason] recorded for it. *)
Definition rejectedFor (pod : api.Pod) (machineToPods : gmap string (list api.Pod))
    (predicateFuncs : gmap string FitPredicate) (node reason : string) : Prop :=
  ∃ name predicate err,
    predicateFuncs !! name = Some predicate ∧
    predicate pod (default [] (machineToPods !! node)) node = (false, err) ∧
    predicateFailure false err = None ∧
    reason = recordedReason name err.

(** What the goroutines of the first wave report: for every config of
    nonzero weight, in registry order, its weight and what its priority
    function answers. *)
Definition priorityAnswers {PodLister : Type} (pod : api.Pod)
    (machinesToPods : gmap string (list api.Pod)) (podLister : PodLister)
    (nodeLister : option NodeLister)
    (priorityConfigs : list (PriorityConfig PodLister))
  : list (Z * (HostPriorityList * option error)) :=
  omap (λ config,
          if (Weight config =? 0)%Z then None
          else Some (Weight config,
                     Function config pod machinesToPods podLister nodeLister))
       priorityConfigs.

(** What the extenders report, in the shape of [priorityAnswers]. *)
Definition extenderAnswers (pod : api.Pod) (nodes : NodeList)
    (extenders : list SchedulerExtender)
  : list (Z * (HostPriorityList * option error)) :=
  (λ ext, let '(prioritizedList, weight, err) := Prioritize ext pod nodes in
          (weight, (prioritizedList, err))) <$> extenders.

(** The scores of [host] in a prioritized list, each times [weight]. *)
Definition weightedSum (weight : Z) (host : string)
    (prioritizedList : HostPriorityList) : Z :=
  foldr (λ entry sum,
           if decide (Host entry = host) then (Score entry * weight + sum)%Z
           else sum) 0%Z prioritizedList.

(** An answer without error that lists [host]. *)
Definition reportsHost (host : string)
    (answer : Z * (HostPriorityList * option error)) : bool :=
  match answer with
  | (_, (prioritizedList, None)) => bool_decide (host ∈ Host <$> prioritizedList)
  | (_, (_, Some _)) => false
  end.

(** The weighted scores of [host] summed over the answers without error. *)
Definition combinedSum (host : string)
    (answers : list (Z * (HostPriorityList * option error))) : Z :=
  foldr (λ answer sum,
           match answer with
           | (weight, (prioritizedList, None)) =>
               (weightedSum weight host prioritizedList + sum)%Z
           | (_, (_, Some _)) => sum
           end) 0%Z answers.

(** [reason] is one of the reasons the failure map [failed] holds. *)
Definition recordedIn (failed : gmap string (gset string)) (reason : string)
  : Prop :=
  ∃ node reasons, failed !! node = Some reasons ∧ reason ∈ reasons.

(** [left] holds the candidates of [failed], each with a part of its
    reasons. *)
Definition shrunkFrom (failed left : gmap string (gset string)) : Prop :=
  dom left = dom failed ∧
  ∀ node remaining,
    left !! node = Some remaining →
    ∃ reasons, failed !! node = Some reasons ∧ remaining ⊆ reasons.

(** ** Fixtures: a small cluster for the worked examples *)

Module Fixtures.

Definition thePod : api.Pod := {| PodName := "web" |}.

Definition nodeA : Node := {| Name := "a" |}.
Definition nodeB : Node := {| Name := "b" |}.
Definition nodeC : Node := {| Name := "c" |}.

(** A pod lister without structure, and no pod placed anywhere. *)
Definition noPods (_ : unit) : gmap string (list api.Pod) * option error :=
  (∅, None).

(** Every [range] yields the entries as [map_to_list] has them, and no
    priority goroutine has finished when line 222 runs. *)
Definition inOrder : Nondeterminism :=
  {| predicateOrder := λ _ entries, entries;
     finishedAtCheck := [];
     scoreOrder := λ entries, entries |}.

(** A predicate that fits every node but "b". *)
Definition notOnB : FitPredicate :=
  λ _ _ node, if String.eqb node "b" then (false, None) else (true, None).

(** A predicate that fits every node. *)
Definition anywhere : FitPredicate := λ _ _ _, (true, None).

(** A predicate that finds too little cpu on every node. *)
Definition noCpu : FitPredicate :=
  λ _ _ _, (false, Some (ErrInsufficientResource {| ResourceName := "cpu" |})).

(** A predicate that errs whenever it is invoked. *)
Definition broken : FitPredicate := λ _ _ _, (false, Some (ErrOther "broken")).

(** A priority function that gives every node of the lister the score 10. *)
Definition preferAll : PriorityFunction unit :=
  λ _ _ _ nodeLister,
    match nodeLister with
    | Some nodeLister =>
        ((λ node, {| Host := Name node; Score := 10 |})
           <$> Items (List nodeLister).1, None)
    | None => ([], None)
    end.

(** A priority function that errs. *)
Definition failing : PriorityFunction unit :=
  λ _ _ _ _, ([], Some (ErrOther "no scores")).

(** An extender that keeps every node and scores each node it is shown
    with 1. *)
Definition keepAll : SchedulerExtender :=
  {| Filter := λ _ nodes, (nodes, None);
     Prioritize := λ _ nodes,
       ((λ node, {| Host := Name node; Score := 1 |}) <$> Items nodes,
        1%Z, None) |}.

(** An extender that keeps no node. *)
Definition keepNone : SchedulerExtender :=
  {| Filter := λ _ _, ({| Items := [] |}, None);
     Prioritize := λ _ _, ([], 1%Z, None) |}.

(** An extender that drops the first node it is shown. *)
Definition dropFirst : SchedulerExtender :=
  {| Filter := λ _ nodes, ({| Items := tail (Items nodes) |}, None);
     Prioritize := λ _ _, ([], 1%Z, None) |}.

Definition listerOf (nodes : list Node) : NodeLister :=
  {| List := ({| Items := nodes |}, None) |}.

Definition ranking : HostPriorityList :=
  [ {| Host := "a"; Score := 3 |};
    {| Host := "b"; Score := 7 |};
    {| Host := "c"; Score := 7 |} ].

End Fixtures.

(** * Properties *)

(** ** The call log monad *)

Lemma mbind_Returns {A B} (k : A → M B) (m : M A) log a :
  m = (log, Returns a) → m ≫= k = (log ++ calls (k a), outcome (k a)).
Proof. intros ->. unfold mbind, M_bind, calls, outcome. by destruct (k a). Qed.

Lemma mbind_Panics {A B} (k : A → M B) (m : M A) log :
  m = (log, Panics) → m ≫= k = (log, Panics).
Proof. by intros ->. Qed.

Lemma mbind_mret {A B} (k : A → M B) (a : A) : mret a ≫= k = k a.
Proof. unfold mbind, M_bind, mret, M_ret. by destruct (k a). Qed.

Lemma mbind_call {A B} (k : A → M B) (c : Call) (v : A) :
  call c v ≫= k = (c :: calls (k v), outcome (k v)).
Proof. unfold mbind, M_bind, call, calls, outcome. by destruct (k v). Qed.

Lemma M_eta {A} (m : M A) : m = (calls m, outcome m).
Proof. by destruct m. Qed.

Lemma Forall_calls_mbind {A B} (P : Call → Prop) (m : M A) (k : A → M B) :
  Forall P (calls m) → (∀ a, Forall P (calls (k a))) →
  Forall P (calls (m ≫= k)).
Proof.
  intros Hm Hk. destruct m as [log [a |]]; [| done].
  rewrite (mbind_Returns _ _ _ _ eq_refl). cbn [calls fst] in *.
  apply Forall_app. split; [done | apply Hk].
Qed.

Lemma calls_mret {A} (a : A) : calls (mret a) = [].
Proof. reflexivity. Qed.

Lemma outcome_mret {A} (a : A) : outcome (mret a) = Returns a.
Proof. reflexivity. Qed.

Lemma mbind_pair {A B} (k : A → M B) log a :
  (log, Returns a) ≫= k = (log ++ calls (k a), outcome (k a)).
Proof. by apply mbind_Returns. Qed.

Ltac simpl_M :=
  repeat first
    [ rewrite mbind_mret | rewrite mbind_pair
    | rewrite calls_mret | rewrite outcome_mret
    | progress cbn [calls outcome fst snd] | rewrite app_nil_r ].

Lemma Forall_calls_mret {A} (P : Call → Prop) (a : A) : Forall P (calls (mret a)).
Proof. constructor. Qed.

Lemma rangeOrder_nil {A} (order : list A → list A) :
  rangeOrder order → order [] = [].
Proof. intros Horder. apply Permutation_nil_r, Horder. Qed.

Lemma rangeOrder_singleton {A} (order : list A → list A) x :
  rangeOrder order → order [x] = [x].
Proof. intros Horder. apply Permutation_singleton_r, Horder. Qed.

(** ** FitError.Error *)

Lemma PopAny_singleton pick (reason : string) :
  rangeOrder pick → sets.PopAny pick {[reason]} = ((reason, true), ∅).
Proof.
  intros Hpick. unfold sets.PopAny.
  rewrite elements_singleton, (rangeOrder_singleton pick reason Hpick).
  f_equal. apply difference_diag_L.
Qed.

Lemma PopAny_empty pick :
  rangeOrder pick → sets.PopAny pick ∅ = ((EmptyString, false), ∅).
Proof.
  intros Hpick. unfold sets.PopAny.
  by rewrite elements_empty, (rangeOrder_nil pick Hpick).
Qed.

(** C3, evaluated on the failure map that holds the one reason "cpu" for the
    one candidate "n1": whatever the orders of the two [range]s, [Error]
    names the reason "cpu", and it leaves the candidate with an empty set
    of reasons, not with the set it had; a second call then has no reason
    left to name. *)
Theorem Error_forgets_the_reason order pick pod :
  rangeOrder order → rangeOrder pick →
  let f := {| Pod := pod; FailedPredicates := {["n1" := {["cpu"]}]} |} in
  let f' := {| Pod := pod; FailedPredicates := {["n1" := ∅]} |} in
  Error order pick f = ("Failed for reason cpu and possibly others", f')
  ∧ FailedPredicates f' !! "n1" ≠ FailedPredicates f !! "n1"
  ∧ Error order pick f' = ("Failed for reason  and possibly others", f').
Proof.
  intros Horder Hpick f f'. split_and!.
  - unfold Error, f. cbn [FailedPredicates Pod].
    rewrite map_to_list_singleton, (rangeOrder_singleton order _ Horder).
    cbn [foldl ErrorStep fst String.length Nat.eqb].
    rewrite lookup_singleton_eq, (PopAny_singleton pick _ Hpick).
    by rewrite insert_singleton_eq.
  - unfold f, f'. cbn [FailedPredicates].
    rewrite !lookup_singleton_eq. intros Heq%(inj Some).
    assert (Hcpu : "cpu" ∈ (∅ : gset string)) by (rewrite Heq; set_solver).
    set_solver.
  - unfold Error, f'. cbn [FailedPredicates Pod].
    rewrite map_to_list_singleton, (rangeOrder_singleton order _ Horder).
    cbn [foldl ErrorStep fst String.length Nat.eqb].
    rewrite lookup_singleton_eq, (PopAny_empty pick Hpick).
    by rewrite insert_singleton_eq.
Qed.

Lemma Error_forgets_the_reason_witness :
  Error (λ entries, entries) (λ entries, entries)
        {| Pod := Fixtures.thePod; FailedPredicates := {["n1" := {["cpu"]}]} |}
  = ("Failed for reason cpu and possibly others",
     {| Pod := Fixtures.thePod; FailedPredicates := {["n1" := ∅]} |}).
Proof.
  apply (Error_forgets_the_reason (λ entries, entries) (λ entries, entries)
           Fixtures.thePod);
    intros entries; reflexivity.
Defined.

(** ** The Priority Stage *)

Section PriorityStageFacts.

Context {PodLister : Type}.

(** C1, amended: with no priority config registered at all and no
    extender, [PrioritizeNodes] ranks the nodes its lister yields, each
    with score 1 and in the lister's order, so every survivor is in the
    ranking with score 1. *)
Theorem PrioritizeNodes_equal_priority finished scoreOrder pod machinesToPods
    (podLister : PodLister) nodeLister nodes :
  List nodeLister = (nodes, None) →
  PrioritizeNodes finished scoreOrder pod machinesToPods podLister []
                  (Some nodeLister) []
  = mret ((λ node, {| Host := Name node; Score := 1 |}) <$> Items nodes, None)
  ∧ ∀ node, node ∈ Items nodes →
      {| Host := Name node; Score := 1 |}
      ∈ ((λ node, {| Host := Name node; Score := 1 |}) <$> Items nodes).
Proof.
  intros Hlist. split.
  - unfold PrioritizeNodes, EqualPriority. simpl. by rewrite Hlist.
  - intros node Hnode. apply list_elem_of_fmap. by exists node.
Qed.

End PriorityStageFacts.

Lemma PrioritizeNodes_equal_priority_witness :
  PrioritizeNodes [] (λ entries, entries) Fixtures.thePod ∅ tt []
    (Some (FakeNodeLister
             {| Items := [Fixtures.nodeA; Fixtures.nodeB; Fixtures.nodeC] |})) []
  = mret ([ {| Host := "a"; Score := 1 |}; {| Host := "b"; Score := 1 |};
            {| Host := "c"; Score := 1 |} ], None).
Proof.
  apply (PrioritizeNodes_equal_priority [] (λ entries, entries) Fixtures.thePod
           ∅ tt
           (FakeNodeLister
              {| Items := [Fixtures.nodeA; Fixtures.nodeB; Fixtures.nodeC] |})
           {| Items := [Fixtures.nodeA; Fixtures.nodeB; Fixtures.nodeC] |}).
  reflexivity.
Defined.

(** C1 as stated fails: one priority config of weight 0 and no extender are
    "zero priority functions with nonzero weight and zero extenders", yet
    the ranking of the two survivors is empty. *)
Lemma PrioritizeNodes_zero_weight_counterexample :
  let priorityConfigs :=
    [ {| Function := Fixtures.preferAll; Weight := 0 |} ] in
  Forall (λ config, Weight config = 0%Z) priorityConfigs
  ∧ PrioritizeNodes [] (λ entries, entries) Fixtures.thePod ∅ tt priorityConfigs
      (Some (FakeNodeLister {| Items := [Fixtures.nodeA; Fixtures.nodeB] |})) []
    = mret ([], None)
  ∧ {| Host := "a"; Score := 1 |} ∉ ([] : HostPriorityList).
Proof.
  split_and!.
  - by repeat constructor.
  - vm_compute. reflexivity.
  - apply not_elem_of_nil.
Qed.

Section ErrorCheck.

Context {PodLister : Type}.

(** The launching loop returns: it only starts goroutines. *)
Lemma launchPriorities_returns pod machinesToPods (podLister : PodLister)
    nodeLister priorityConfigs :
  ∀ i, ∃ log tasks,
    launchPriorities pod machinesToPods podLister nodeLister i priorityConfigs
    = (log, Returns tasks) ∧
    Forall (λ c, isPrioritizeCall c = false) log.
Proof.
  induction priorityConfigs as [| config priorityConfigs IH]; intros i.
  - by exists [], [].
  - cbn [launchPriorities]. destruct (Weight config =? 0)%Z; [apply IH |].
    destruct (IH (S i)) as (log & tasks & Hrest & Hlog).
    rewrite mbind_call, (mbind_Returns _ _ _ _ Hrest).
    eexists _, _. split; [reflexivity |].
    constructor; [done |]. cbn. by rewrite app_nil_r.
Qed.

(** X1: where the check of line 222 sees nothing: no goroutine has finished
    by then.  Whatever the priority functions answer, the stage goes on and,
    without extenders, returns the ranking of the scores that arrived, and
    no error. *)
Lemma PrioritizeNodes_misses_later_errors scoreOrder pod machinesToPods
    (podLister : PodLister) priorityConfigs nodeLister :
  priorityConfigs ≠ [] →
  ∃ log tasks,
    launchPriorities pod machinesToPods podLister nodeLister 0 priorityConfigs
    = (log, Returns tasks) ∧
    PrioritizeNodes [] scoreOrder pod machinesToPods podLister priorityConfigs
                    nodeLister []
    = (log,
       Returns ((λ '(host, score), {| Host := host; Score := score |})
                  <$> scoreOrder (map_to_list (joinPriorities tasks)),
                None)).
Proof.
  intros Hconfigs.
  destruct (launchPriorities_returns pod machinesToPods podLister nodeLister
              priorityConfigs 0) as (log & tasks & Hlaunch & _).
  exists log, tasks. split; [done |].
  unfold PrioritizeNodes.
  destruct priorityConfigs as [| config priorityConfigs']; [done |].
  set (priorityConfigs := config :: priorityConfigs') in *.
  change ((length priorityConfigs =? 0)%nat
          && (length (@nil SchedulerExtender) =? 0)%nat) with false.
  cbv iota.
  rewrite (mbind_Returns _ _ _ _ Hlaunch).
  cbn [errsAtCheck omap length Nat.eqb negb]. by simpl_M.
Qed.

(** X2: where the check of line 222 does see an error: some goroutine whose
    priority function erred has finished by then.  The aggregate holds
    errors of priority functions only. *)
Lemma PrioritizeNodes_aggregates_what_it_sees finished scoreOrder pod
    machinesToPods (podLister : PodLister) priorityConfigs nodeLister extenders
    log tasks j weight prioritizedList err :
  priorityConfigs ≠ [] →
  launchPriorities pod machinesToPods podLister nodeLister 0 priorityConfigs
  = (log, Returns tasks) →
  j ∈ finished →
  tasks !! j = Some (weight, (prioritizedList, Some err)) →
  ∃ errs,
    PrioritizeNodes finished scoreOrder pod machinesToPods podLister
                    priorityConfigs nodeLister extenders
    = (log, Returns ([], Some (ErrAggregate errs))) ∧
    err ∈ errs ∧
    ∀ e, e ∈ errs → ∃ k w l, tasks !! k = Some (w, (l, Some e)).
Proof.
  intros Hconfigs Hlaunch Hfinished Htask.
  unfold PrioritizeNodes.
  destruct priorityConfigs as [| config priorityConfigs']; [done |].
  set (priorityConfigs := config :: priorityConfigs') in *.
  change ((length priorityConfigs =? 0)%nat && (length extenders =? 0)%nat)
    with false. cbv iota.
  rewrite (mbind_Returns _ _ _ _ Hlaunch).
  assert (Hin : err ∈ errsAtCheck finished tasks).
  { unfold errsAtCheck. apply list_elem_of_omap. exists j. by rewrite Htask. }
  exists (errsAtCheck finished tasks).
  destruct (errsAtCheck finished tasks) as [| e errs] eqn:Herrs;
    [by apply elem_of_nil in Hin |].
  cbn [length Nat.eqb negb]. simpl_M. split_and!; [done | done |].
  intros e' He'. rewrite <- Herrs in He'. unfold errsAtCheck in He'.
  apply list_elem_of_omap in He' as (k & _ & Hk).
  destruct (tasks !! k) as [[w [l [e'' |]]] |] eqn:Hlookup; try done.
  injection Hk as ->. by exists k, w, l.
Qed.

End ErrorCheck.

Lemma PrioritizeNodes_misses_later_errors_witness :
  let priorityConfigs :=
    [ {| Function := Fixtures.failing; Weight := 1 |} ] in
  let nodeLister := Some (Fixtures.listerOf [Fixtures.nodeA]) in
  ∃ log tasks,
    launchPriorities Fixtures.thePod ∅ tt nodeLister 0 priorityConfigs
    = (log, Returns tasks) ∧
    PrioritizeNodes [] (λ entries, entries) Fixtures.thePod ∅ tt priorityConfigs
                    nodeLister []
    = (log,
       Returns ((λ '(host, score), {| Host := host; Score := score |})
                  <$> map_to_list (joinPriorities tasks),
                None)).
Proof.
  intros priorityConfigs nodeLister.
  apply (PrioritizeNodes_misses_later_errors (λ entries, entries)
           Fixtures.thePod ∅ tt priorityConfigs nodeLister).
  discriminate.
Defined.

Lemma PrioritizeNodes_aggregates_what_it_sees_witness :
  let priorityConfigs :=
    [ {| Function := Fixtures.failing; Weight := 1 |} ] in
  let nodeLister := Some (Fixtures.listerOf [Fixtures.nodeA]) in
  let tasks : list (Z * (HostPriorityList * option error)) :=
    [(1%Z, ([], Some (ErrOther "no scores")))] in
  ∃ errs,
    PrioritizeNodes [0] (λ entries, entries) Fixtures.thePod ∅ tt
                    priorityConfigs nodeLister [Fixtures.keepAll]
    = ([PriorityCall 0 Fixtures.thePod nodeLister],
       Returns ([], Some (ErrAggregate errs))) ∧
    ErrOther "no scores" ∈ errs ∧
    ∀ e, e ∈ errs → ∃ k w l, tasks !! k = Some (w, (l, Some e)).
Proof.
  intros priorityConfigs nodeLister tasks.
  apply (PrioritizeNodes_aggregates_what_it_sees [0] (λ entries, entries)
           Fixtures.thePod ∅ tt priorityConfigs nodeLister [Fixtures.keepAll]
           [PriorityCall 0 Fixtures.thePod nodeLister] tasks 0 1%Z []
           (ErrOther "no scores")).
  - discriminate.
  - reflexivity.
  - left.
  - reflexivity.
Defined.

(** C4, evaluated on one priority function of weight 1 that errs.  Line 222
    reads [errs] before [wg.Wait()]: when the goroutine has not finished by
    then, the stage returns an empty ranking and no error; only when it has
    does the stage return the aggregate. *)
Theorem PrioritizeNodes_checks_before_waiting :
  let priorityConfigs :=
    [ {| Function := Fixtures.failing; Weight := 1 |} ] in
  let nodeLister := Some (FakeNodeLister {| Items := [Fixtures.nodeA] |}) in
  PrioritizeNodes [] (λ entries, entries) Fixtures.thePod ∅ tt priorityConfigs
                  nodeLister []
  = ([PriorityCall 0 Fixtures.thePod nodeLister], Returns ([], None))
  ∧ PrioritizeNodes [0] (λ entries, entries) Fixtures.thePod ∅ tt priorityConfigs
                    nodeLister []
    = ([PriorityCall 0 Fixtures.thePod nodeLister],
       Returns ([], Some (ErrAggregate [ErrOther "no scores"]))).
Proof. split; vm_compute; reflexivity. Qed.

(** ** The order of the goroutines does not matter to the scores *)

Lemma wrap64_add_l x y : wrap64 (wrap64 x + y) = wrap64 (x + y).
Proof.
  unfold wrap64.
  replace ((x + 2 ^ 63) `mod` 2 ^ 64 - 2 ^ 63 + y + 2 ^ 63)%Z
    with ((x + 2 ^ 63) `mod` 2 ^ 64 + y)%Z by lia.
  rewrite Zplus_mod_idemp_l. f_equal. f_equal. lia.
Qed.

(** One [combinedScores[host] += delta]. *)
Lemma addScores_cons weight combinedScores entry prioritizedList :
  addScores weight combinedScores (entry :: prioritizedList)
  = addScores weight
      (<[Host entry := wrap64 (default 0%Z (combinedScores !! Host entry)
                               + wrap64 (Score entry * weight))]> combinedScores)
      prioritizedList.
Proof. reflexivity. Qed.

Lemma bump_comm (combinedScores : gmap string Z) host1 delta1 host2 delta2 :
  let bump host delta (scores : gmap string Z) :=
    <[host := wrap64 (default 0%Z (scores !! host) + delta)]> scores in
  bump host1 delta1 (bump host2 delta2 combinedScores)
  = bump host2 delta2 (bump host1 delta1 combinedScores).
Proof.
  intros bump. unfold bump.
  destruct (decide (host1 = host2)) as [-> | Hne].
  - rewrite !lookup_insert_eq, !insert_insert_eq. cbn [default id]. f_equal.
    rewrite !wrap64_add_l. f_equal. lia.
  - rewrite !lookup_insert_ne by done. by apply insert_insert_ne.
Qed.

Lemma addScores_bump weight prioritizedList :
  ∀ combinedScores host delta,
    addScores weight
      (<[host := wrap64 (default 0%Z (combinedScores !! host) + delta)]>
         combinedScores) prioritizedList
    = let scores := addScores weight combinedScores prioritizedList in
      <[host := wrap64 (default 0%Z (scores !! host) + delta)]> scores.
Proof.
  induction prioritizedList as [| entry prioritizedList IH];
    intros combinedScores host delta; [done |].
  rewrite !addScores_cons. cbv zeta. rewrite <- IH. f_equal.
  apply (bump_comm combinedScores).
Qed.

Lemma addScores_comm weight1 prioritizedList1 weight2 prioritizedList2 :
  ∀ combinedScores,
    addScores weight1 (addScores weight2 combinedScores prioritizedList2)
              prioritizedList1
    = addScores weight2 (addScores weight1 combinedScores prioritizedList1)
                prioritizedList2.
Proof.
  induction prioritizedList1 as [| entry prioritizedList1 IH];
    intros combinedScores; [done |].
  rewrite !addScores_cons. rewrite <- IH. f_equal.
  symmetry. apply addScores_bump.
Qed.

(** X3: the scores the first wave leaves do not depend on the order in
    which its goroutines took the lock. *)
Lemma joinPriorities_Permutation
    (tasks tasks' : list (Z * (HostPriorityList * option error))) :
  tasks ≡ₚ tasks' → joinPriorities tasks = joinPriorities tasks'.
Proof.
  unfold joinPriorities. generalize (∅ : gmap string Z).
  intros scores Hperm. revert scores.
  induction Hperm as [| task tasks tasks' _ IH | task1 task2 tasks
                      | tasks1 tasks2 tasks3 _ IH1 _ IH2]; intros scores.
  - done.
  - cbn [foldl]. apply IH.
  - cbn [foldl]. f_equal.
    destruct task1 as [w1 [l1 [e1 |]]], task2 as [w2 [l2 [e2 |]]]; try done.
    apply addScores_comm.
  - by rewrite IH1.
Qed.

Lemma joinPriorities_Permutation_witness :
  let first : Z * (HostPriorityList * option error) :=
    (2%Z, ([ {| Host := "a"; Score := 3 |}; {| Host := "b"; Score := 1 |} ],
           None)) in
  let second : Z * (HostPriorityList * option error) :=
    (5%Z, ([ {| Host := "b"; Score := 4 |} ], None)) in
  joinPriorities [first; second] = joinPriorities [second; first].
Proof.
  intros first second.
  apply (joinPriorities_Permutation [first; second] [second; first]).
  apply perm_swap.
Defined.

(** ** The Selector *)

Section Selector.

Local Open Scope Z_scope.

Lemma staysBefore_scoreDescending a b : staysBefore a b → scoreDescending a b.
Proof.
  unfold staysBefore, scoreDescending, Less.
  destruct (Z.eqb_spec (Score a) (Score b)) as [-> | _]; [lia |].
  intros H%Z.ltb_ge. exact H.
Qed.

#[local] Instance staysBefore_total : Total staysBefore.
Proof.
  intros a b. unfold staysBefore, Less.
  rewrite (Z.eqb_sym (Score b)).
  destruct (Z.eqb_spec (Score a) (Score b)) as [_ | _].
  - unfold String.ltb. rewrite (String.compare_antisym (Host a) (Host b)).
    destruct (String.compare (Host b) (Host a)); simpl; auto.
  - destruct (Z.ltb_spec (Score a) (Score b)), (Z.ltb_spec (Score b) (Score a));
      auto; lia.
Qed.

#[local] Instance scoreDescending_trans : Transitive scoreDescending.
Proof. unfold scoreDescending. intros a b c. lia. Qed.

Lemma sortReverse_Permutation priorityList :
  sortReverse priorityList ≡ₚ priorityList.
Proof. apply merge_sort_Permutation. Qed.

Lemma Sorted_weaken {A} (R1 R2 : relation A) (l : list A) :
  (∀ x y, R1 x y → R2 x y) → Sorted R1 l → Sorted R2 l.
Proof.
  intros HR. induction 1 as [| x l _ IH Hhd]; constructor; [done |].
  destruct Hhd; constructor; auto.
Qed.

Lemma sortReverse_sorted priorityList :
  StronglySorted scoreDescending (sortReverse priorityList).
Proof.
  apply Sorted_StronglySorted; [apply _ |].
  apply (Sorted_weaken staysBefore); [exact staysBefore_scoreDescending |].
  apply (Sorted_merge_sort staysBefore).
Qed.

(** On a list sorted by score descending whose scores are at most
    [score0], the loop of [getBestHosts] cuts the list where the scores
    drop below [score0]. *)
Lemma bestHostsFrom_split score0 entries :
  StronglySorted scoreDescending entries →
  (∀ e, e ∈ entries → Score e ≤ score0) →
  ∃ best rest,
    entries = best ++ rest ∧
    bestHostsFrom score0 entries = Host <$> best ∧
    (∀ e, e ∈ best → Score e = score0) ∧
    (∀ e, e ∈ rest → Score e < score0).
Proof.
  induction entries as [| e entries IH]; intros Hsorted Hle.
  - exists [], []. repeat split; intros ? []%elem_of_nil.
  - apply StronglySorted_inv in Hsorted as [Hsorted Hhead].
    simpl. destruct (Z.eqb_spec (Score e) score0) as [Heq | Hne].
    + destruct IH as (best & rest & -> & Hbest & Hall & Hlt); [done | |].
      { intros e' He'. apply Hle. by right. }
      exists (e :: best), rest. rewrite Hbest. repeat split; [| done].
      intros e' [-> | He']%elem_of_cons; auto.
    + exists [], (e :: entries). repeat split; [intros ? []%elem_of_nil |].
      assert (Score e < score0) by (specialize (Hle e ltac:(left)); lia).
      intros e' [-> | He']%elem_of_cons; [done |].
      rewrite Forall_forall in Hhead. specialize (Hhead e' He').
      unfold scoreDescending in Hhead. lia.
Qed.

Lemma selectHost_empty random :
  selectHost random [] = mret (EmptyString, Some ErrEmptyPriorityList).
Proof. reflexivity. Qed.

Lemma selectHost_nonempty random priorityList :
  0 ≤ random → priorityList ≠ [] →
  ∃ best rest entry,
    sortReverse priorityList = best ++ rest ∧
    entry ∈ best ∧
    (∀ e, e ∈ best → ∀ other, other ∈ priorityList → Score other ≤ Score e) ∧
    (∀ e, e ∈ rest → Score e < Score entry) ∧
    selectHost random priorityList = mret (Host entry, None).
Proof.
  intros Hrandom Hne.
  pose proof (sortReverse_Permutation priorityList) as Hperm.
  pose proof (sortReverse_sorted priorityList) as Hsorted.
  unfold selectHost.
  destruct priorityList as [| e0 priorityList']; [done |].
  set (priorityList := e0 :: priorityList') in *.
  change (length priorityList =? 0)%nat with false. cbv iota.
  destruct (sortReverse priorityList) as [| first sorted'] eqn:Hsort.
  { symmetry in Hperm. by apply Permutation_nil_r in Hperm. }
  assert (Hmax : ∀ e, e ∈ first :: sorted' → Score e ≤ Score first).
  { intros e [-> | He]%elem_of_cons; [lia |].
    apply StronglySorted_inv in Hsorted as [_ Hhead].
    rewrite Forall_forall in Hhead. exact (Hhead e He). }
  destruct (bestHostsFrom_split (Score first) (first :: sorted') Hsorted Hmax)
    as (best & rest & Hsplit & Hbest & Hall & Hlt).
  unfold getBestHosts. rewrite Hbest, length_fmap.
  assert (Hfirst : first ∈ best).
  { destruct best as [| b best']; simpl in Hsplit.
    - exfalso. specialize (Hlt first). rewrite <- Hsplit in Hlt.
      specialize (Hlt ltac:(left)). lia.
    - injection Hsplit as <- _. left. }
  assert (0 < length best)%nat.
  { destruct best; [by apply elem_of_nil in Hfirst | simpl; lia]. }
  destruct (Nat.eqb_spec (length best) 0) as [? | _]; [lia |].
  pose proof (Z.rem_bound_pos random (Z.of_nat (length best))
                Hrandom ltac:(lia)) as [Hlo Hhi].
  destruct (Z.ltb_spec (Z.rem random (Z.of_nat (length best))) 0) as [? | _];
    [lia |].
  destruct (lookup_lt_is_Some_2 best
              (Z.to_nat (Z.rem random (Z.of_nat (length best))))
              ltac:(lia)) as [entry Hentry].
  rewrite list_lookup_fmap, Hentry. simpl.
  assert (Hin : entry ∈ best) by (eapply list_elem_of_lookup_2; eauto).
  exists best, rest, entry. split_and!; [done | done | | | done].
  - intros e He other Hother. rewrite (Hall e He). apply Hmax.
    by rewrite Hperm.
  - intros e He. rewrite (Hall entry Hin). by apply Hlt.
Qed.

(** C7: [selectHost] returns an error exactly when the ranking is empty.
    On a non-empty ranking, whatever the (non-negative) random draw, the
    sorted ranking splits into the entries of maximal score, [best], and
    the entries of smaller score, [rest], and the host returned is the
    host of an entry of [best]. *)
Theorem selectHost_picks_a_best_host random priorityList :
  0 ≤ random →
  (priorityList = [] ↔
     ∃ host err,
       outcome (selectHost random priorityList) = Returns (host, Some err))
  ∧ (priorityList ≠ [] →
     ∃ best rest entry,
       sortReverse priorityList = best ++ rest ∧
       entry ∈ best ∧ entry ∈ priorityList ∧
       (∀ e, e ∈ best → ∀ other, other ∈ priorityList → Score other ≤ Score e) ∧
       (∀ e, e ∈ rest → Score e < Score entry) ∧
       selectHost random priorityList = mret (Host entry, None)).
Proof.
  intros Hrandom. split; [split |].
  - intros ->. by exists EmptyString, ErrEmptyPriorityList.
  - intros (host & err & Herr).
    destruct priorityList as [| e priorityList]; [done | exfalso].
    destruct (selectHost_nonempty random (e :: priorityList) Hrandom)
      as (_ & _ & entry & _ & _ & _ & _ & Hselect); [done |].
    by rewrite Hselect in Herr.
  - intros Hne.
    destruct (selectHost_nonempty random priorityList Hrandom Hne)
      as (best & rest & entry & Hsort & Hentry & Hmax & Hlt & Hselect).
    exists best, rest, entry. split_and!; try done.
    rewrite <- (sortReverse_Permutation priorityList), Hsort.
    apply elem_of_app. by left.
Qed.

End Selector.

Lemma selectHost_picks_a_best_host_witness :
  (0 ≤ 5)%Z
  ∧ Fixtures.ranking ≠ []
  ∧ outcome (selectHost 5 Fixtures.ranking) = Returns ("b", None)
  ∧ outcome (selectHost 4 Fixtures.ranking) = Returns ("c", None)
  ∧ ∃ best rest entry,
      sortReverse Fixtures.ranking = best ++ rest ∧
      entry ∈ best ∧ entry ∈ Fixtures.ranking ∧
      (∀ e, e ∈ best →
         ∀ other, other ∈ Fixtures.ranking → (Score other ≤ Score e)%Z) ∧
      (∀ e, e ∈ rest → (Score e < Score entry)%Z) ∧
      selectHost 5 Fixtures.ranking = mret (Host entry, None).
Proof.
  split_and!; [lia | discriminate | reflexivity | reflexivity |].
  apply (selectHost_picks_a_best_host 5 Fixtures.ranking); [lia | discriminate].
Defined.

(** ** The scheduling algorithm: the two ways to find no host *)

Section ScheduleErrors.

Context {PodLister : Type}.
Variable MapPodsToMachines :
  PodLister → gmap string (list api.Pod) * option error.

(** C9: when the lister yields no node, [Schedule] returns
    [ErrNoNodesAvailable]; when it yields nodes and the Filter Stage leaves
    none of them, [Schedule] returns a [FitError] that carries the failure
    map of the Filter Stage.  The two errors differ, and either comes with
    the empty host name. *)
Theorem Schedule_no_nodes_or_no_fit nd (g : genericScheduler) pod nodeLister
    nodes :
  List nodeLister = (nodes, None) →
  (Items nodes = [] →
     Schedule MapPodsToMachines nd g pod nodeLister
     = mret (EmptyString, Some ErrNoNodesAvailable))
  ∧ (∀ machinesToPods log failedPredicateMap,
       Items nodes ≠ [] →
       MapPodsToMachines (pods g) = (machinesToPods, None) →
       findNodesThatFit (predicateOrder nd) pod machinesToPods (predicates g)
                        nodes (extenders g)
       = (log, Returns ({| Items := [] |}, failedPredicateMap, None)) →
       Schedule MapPodsToMachines nd g pod nodeLister
       = (log, Returns (EmptyString,
                        Some (ErrFit {| Pod := pod;
                                        FailedPredicates := failedPredicateMap |}))))
  ∧ (∀ f, ErrNoNodesAvailable ≠ ErrFit f).
Proof.
  intros Hlist. unfold Schedule. rewrite Hlist. split_and!.
  - by intros ->.
  - intros machinesToPods log failedPredicateMap Hne HmapPods Hfilter.
    destruct (Items nodes) as [| node rest] eqn:Hitems; [done |].
    simpl. rewrite HmapPods.
    rewrite (mbind_Returns _ _ _ _ Hfilter). simpl.
    by rewrite app_nil_r.
  - discriminate.
Qed.

End ScheduleErrors.

Lemma Schedule_no_nodes_or_no_fit_witness :
  let g := {| predicates := {["PodFitsResources" := Fixtures.noCpu]};
              prioritizers := []; extenders := []; pods := tt; random := 0 |} in
  outcome (Schedule Fixtures.noPods Fixtures.inOrder g Fixtures.thePod
                    (Fixtures.listerOf []))
  = Returns (EmptyString, Some ErrNoNodesAvailable)
  ∧ outcome (Schedule Fixtures.noPods Fixtures.inOrder g Fixtures.thePod
                      (Fixtures.listerOf [Fixtures.nodeA]))
    = Returns (EmptyString,
               Some (ErrFit {| Pod := Fixtures.thePod;
                               FailedPredicates := {["a" := {["cpu"]}]} |})).
Proof.
  intros g. split.
  - destruct (Schedule_no_nodes_or_no_fit Fixtures.noPods Fixtures.inOrder g
                Fixtures.thePod (Fixtures.listerOf []) {| Items := [] |}
                eq_refl) as (Hnone & _ & _).
    by rewrite Hnone.
  - destruct (Schedule_no_nodes_or_no_fit Fixtures.noPods Fixtures.inOrder g
                Fixtures.thePod (Fixtures.listerOf [Fixtures.nodeA])
                {| Items := [Fixtures.nodeA] |} eq_refl) as (_ & Hfit & _).
    rewrite (Hfit ∅ [PredicateCall "PodFitsResources" Fixtures.thePod [] "a"]
                  {["a" := {["cpu"]}]}); [done | done | done |].
    vm_compute. reflexivity.
Defined.

(** ** The Filter Stage: predicates *)

(** One round of the loop over the predicates. *)
Lemma rangePredicateFuncs_cons pod machineToPods node failedPredicateMap name
    (predicate : FitPredicate) entries :
  let existing := default [] (machineToPods !! Name node) in
  rangePredicateFuncs pod machineToPods node failedPredicateMap
                      ((name, predicate) :: entries)
  = let '(fit, err) := predicate pod existing (Name node) in
    let rest :=
      match predicateFailure fit err with
      | Some err => mret (LoopReturns err)
      | None =>
          if negb fit then
            mret (LoopEnds false
                    (recordFailure failedPredicateMap (Name node) name err))
          else rangePredicateFuncs pod machineToPods node failedPredicateMap
                                   entries
      end in
    (PredicateCall name pod existing (Name node) :: calls rest, outcome rest).
Proof.
  intros existing. cbn [rangePredicateFuncs]. rewrite mbind_call.
  fold existing. by destruct (predicate pod existing (Name node)).
Qed.

Lemma rangePredicateFuncs_break pod machineToPods node
    failedPredicateMap passed name (predicate : FitPredicate) err later :
  let existing := default [] (machineToPods !! Name node) in
  (∀ entry : string * FitPredicate,
     entry ∈ passed → entry.2 pod existing (Name node) = (true, None)) →
  predicate pod existing (Name node) = (false, err) →
  predicateFailure false err = None →
  rangePredicateFuncs pod machineToPods node failedPredicateMap
                      (passed ++ (name, predicate) :: later)
  = ((λ entry : string * FitPredicate,
        PredicateCall entry.1 pod existing (Name node))
       <$> (passed ++ [(name, predicate)]),
     Returns (LoopEnds false
                (recordFailure failedPredicateMap (Name node) name err))).
Proof.
  intros existing Hpassed Hpredicate Hfailure.
  induction passed as [| [name' predicate'] passed IH].
  - rewrite !app_nil_l, rangePredicateFuncs_cons. fold existing.
    rewrite Hpredicate, Hfailure. reflexivity.
  - rewrite <- !app_comm_cons, rangePredicateFuncs_cons. fold existing.
    pose proof (Hpassed (name', predicate') ltac:(left)) as Hpass.
    cbn [snd] in Hpass. rewrite Hpass.
    cbn [predicateFailure negb]. rewrite IH; [done |].
    intros entry Hentry. apply Hpassed. by right.
Qed.

Lemma recordFailure_lookup failedPredicateMap node name err :
  recordFailure failedPredicateMap node name err !! node
  = Some ({[recordedReason name err]} ∪ default ∅ (failedPredicateMap !! node)).
Proof.
  unfold recordFailure, recordedReason, sets.Insert.
  destruct (failedPredicateMap !! node) as [reasons |] eqn:Hnode;
    destruct err as [[] |]; rewrite lookup_insert_eq; try rewrite Hnode;
    try rewrite lookup_insert_eq; done.
Qed.

Lemma recordFailure_lookup_ne failedPredicateMap node name err other :
  other ≠ node →
  recordFailure failedPredicateMap node name err !! other
  = failedPredicateMap !! other.
Proof.
  intros Hne. unfold recordFailure.
  destruct (failedPredicateMap !! node) as [reasons |] eqn:Hnode;
    destruct err as [[] |]; rewrite !lookup_insert_ne by done; done.
Qed.

Lemma rangeNodes_cons order pod machineToPods predicateFuncs i node nodes
    filtered failedPredicateMap :
  rangeNodes order pod machineToPods predicateFuncs i (node :: nodes) filtered
             failedPredicateMap
  = rangePredicateFuncs pod machineToPods node failedPredicateMap
      (order i (map_to_list predicateFuncs))
    ≫= λ r,
      match r with
      | LoopReturns err => mret (inr err)
      | LoopEnds fits failedPredicateMap =>
          rangeNodes order pod machineToPods predicateFuncs (S i) nodes
            (if fits then filtered ++ [node] else filtered) failedPredicateMap
      end.
Proof. reflexivity. Qed.

(** C5: in the Filter Stage, when the predicates visited for a candidate
    are [passed], which all fit, then [predicate], which reports the
    candidate unfit (with no error or with an insufficient resource), and
    then [later], the predicates invoked for the candidate are those of
    [passed] and [predicate] and none of [later]: the failure is recorded
    and the stage goes on with the next candidate, whatever the predicates
    of [later] would have answered. *)
Theorem rangeNodes_stops_at_first_failure order pod machineToPods predicateFuncs
    i node nodes filtered failedPredicateMap passed name
    (predicate : FitPredicate) err later :
  let existing := default [] (machineToPods !! Name node) in
  order i (map_to_list predicateFuncs) = passed ++ (name, predicate) :: later →
  (∀ entry : string * FitPredicate,
     entry ∈ passed → entry.2 pod existing (Name node) = (true, None)) →
  predicate pod existing (Name node) = (false, err) →
  predicateFailure false err = None →
  let rest :=
    rangeNodes order pod machineToPods predicateFuncs (S i) nodes filtered
               (recordFailure failedPredicateMap (Name node) name err) in
  rangeNodes order pod machineToPods predicateFuncs i (node :: nodes) filtered
             failedPredicateMap
  = (((λ entry : string * FitPredicate,
         PredicateCall entry.1 pod existing (Name node))
        <$> (passed ++ [(name, predicate)])) ++ calls rest,
     outcome rest).
Proof.
  intros existing Horder Hpassed Hpredicate Hfailure rest.
  rewrite rangeNodes_cons, Horder.
  by rewrite (mbind_Returns _ _ _ _
                (rangePredicateFuncs_break pod machineToPods
                   node failedPredicateMap passed name predicate err later
                   Hpassed Hpredicate Hfailure)).
Qed.

Lemma rangeNodes_stops_at_first_failure_witness :
  let predicateFuncs : gmap string FitPredicate :=
    <["NoDiskConflict" := Fixtures.notOnB]>
      (<["PodFitsResources" := Fixtures.broken]> ∅) in
  rangeNodes (λ _ entries, entries) Fixtures.thePod ∅ predicateFuncs 0
             [Fixtures.nodeB] [] ∅
  = ([PredicateCall "NoDiskConflict" Fixtures.thePod [] "b"],
     Returns (inl ([], {["b" := {["NoDiskConflict"]}]}))).
Proof.
  intros predicateFuncs. etrans.
  - apply (rangeNodes_stops_at_first_failure (λ _ entries, entries)
             Fixtures.thePod ∅ predicateFuncs 0 Fixtures.nodeB [] [] ∅ []
             "NoDiskConflict" Fixtures.notOnB None
             [("PodFitsResources", Fixtures.broken)]).
    + vm_compute. reflexivity.
    + intros entry []%elem_of_nil.
    + reflexivity.
    + reflexivity.
  - vm_compute. reflexivity.
Defined.

(** What the loop over the predicates of one node comes to. *)
Lemma rangePredicateFuncs_result pod machineToPods node failedPredicateMap
    (entries : list (string * FitPredicate)) :
  let existing := default [] (machineToPods !! Name node) in
  ∃ log r,
    rangePredicateFuncs pod machineToPods node failedPredicateMap entries
    = (log, Returns r) ∧
    match r with
    | LoopEnds true failedPredicateMap' =>
        failedPredicateMap' = failedPredicateMap ∧
        ∀ entry, entry ∈ entries → entry.2 pod existing (Name node) = (true, None)
    | LoopEnds false failedPredicateMap' =>
        ∃ name predicate err,
          (name, predicate) ∈ entries ∧
          predicate pod existing (Name node) = (false, err) ∧
          predicateFailure false err = None ∧
          failedPredicateMap'
          = recordFailure failedPredicateMap (Name node) name err
    | LoopReturns e =>
        ∃ name predicate fit err,
          (name, predicate) ∈ entries ∧
          predicate pod existing (Name node) = (fit, err) ∧
          predicateFailure fit err = Some e
    end.
Proof.
  intros existing. induction entries as [| [name predicate] entries IH].
  - exists [], (LoopEnds true failedPredicateMap). split; [done |].
    split; [done |]. intros entry []%elem_of_nil.
  - rewrite rangePredicateFuncs_cons. fold existing.
    destruct (predicate pod existing (Name node)) as [fit err] eqn:Hpredicate.
    destruct (predicateFailure fit err) as [e |] eqn:Hfailure.
    + eexists _, _. split; [reflexivity |].
      exists name, predicate, fit, err. split_and!; [left | done | done].
    + destruct fit; cbn [negb].
      * destruct IH as (log & r & -> & Hr). eexists _, _. split; [reflexivity |].
        cbn [outcome snd].
        assert (Herr : err = None).
        { destruct err as [[] |]; simpl in Hfailure; congruence. }
        subst err.
        destruct r as [[] failedPredicateMap' | e].
        -- destruct Hr as [-> Hall]. split; [done |].
           intros entry [-> | Hentry]%elem_of_cons; auto.
        -- destruct Hr as (name' & predicate' & err' & Hin & Hr).
           exists name', predicate', err'. split; [by right | done].
        -- destruct Hr as (name' & predicate' & fit' & err' & Hin & Hr).
           exists name', predicate', fit', err'. split; [by right | done].
      * eexists _, _. split; [reflexivity |].
        exists name, predicate, err. split_and!; [left | done | done | done].
Qed.

Section NoCpu.

Variables (pod : api.Pod) (machineToPods : gmap string (list api.Pod)).

Lemma rangePredicateFuncs_noCpu node failedPredicateMap entries :
  cpuOnly pod machineToPods entries node →
  ∃ log name,
    rangePredicateFuncs pod machineToPods node failedPredicateMap entries
    = (log, Returns (LoopEnds false
                       (recordFailure failedPredicateMap (Name node) name
                                      noCpuErr))).
Proof.
  intros [Hall (failing & Hin & Hfailing)].
  destruct (rangePredicateFuncs_result pod machineToPods node
              failedPredicateMap entries) as (log & r & Hrun & Hr).
  rewrite Hrun. destruct r as [[] failedPredicateMap' | e].
  - destruct Hr as [_ Hpass]. rewrite (Hpass _ Hin) in Hfailing. done.
  - destruct Hr as (name & predicate & err & Hentry & Hpredicate & _ & ->).
    destruct (Hall _ Hentry) as [Hres | Hres]; cbn [snd] in Hres;
      rewrite Hpredicate in Hres; [done |].
    injection Hres as ->. by exists log, name.
  - destruct Hr as (name & predicate & fit & err & Hentry & Hpredicate & Hfailure).
    destruct (Hall _ Hentry) as [Hres | Hres]; cbn [snd] in Hres;
      rewrite Hpredicate in Hres; injection Hres as -> ->; done.
Qed.

Lemma rangeNodes_noCpu order predicateFuncs nodes :
  (∀ i node, node ∈ nodes →
     cpuOnly pod machineToPods (order i (map_to_list predicateFuncs)) node) →
  ∀ i filtered failedPredicateMap,
    (∀ name reasons, failedPredicateMap !! name = Some reasons →
                     reasons = {["cpu"]}) →
    ∃ log failedPredicateMap',
      rangeNodes order pod machineToPods predicateFuncs i nodes filtered
                 failedPredicateMap
      = (log, Returns (inl (filtered, failedPredicateMap'))) ∧
      (∀ name reasons, failedPredicateMap' !! name = Some reasons →
                       reasons = {["cpu"]}) ∧
      (∀ name, is_Some (failedPredicateMap' !! name) ↔
               is_Some (failedPredicateMap !! name) ∨
               ∃ node, node ∈ nodes ∧ Name node = name).
Proof.
  induction nodes as [| node nodes IH];
    intros Hcpu i filtered failedPredicateMap Hreasons.
  - exists [], failedPredicateMap. split_and!; [done | done |].
    intros name. split; [by left |].
    intros [? | (node & []%elem_of_nil & _)]; done.
  - destruct (rangePredicateFuncs_noCpu node failedPredicateMap
                (order i (map_to_list predicateFuncs)))
      as (log & name & Hloop); [apply Hcpu; left |].
    set (failedPredicateMap1 :=
           recordFailure failedPredicateMap (Name node) name noCpuErr) in *.
    assert (Hreasons1 : ∀ name reasons,
              failedPredicateMap1 !! name = Some reasons → reasons = {["cpu"]}).
    { intros other reasons. destruct (decide (other = Name node)) as [-> | Hne].
      - unfold failedPredicateMap1. rewrite recordFailure_lookup.
        intros [= <-]. cbn [recordedReason noCpuErr ResourceName].
        destruct (failedPredicateMap !! Name node) as [old |] eqn:Hold;
          cbn [default]; [rewrite (Hreasons _ _ Hold) |]; set_solver.
      - unfold failedPredicateMap1.
        rewrite recordFailure_lookup_ne by done. apply Hreasons. }
    destruct (IH (λ j n Hn, Hcpu j n (list_elem_of_further _ _ _ Hn))
                 (S i) filtered failedPredicateMap1 Hreasons1)
      as (log' & failedPredicateMap' & Hrest & Hreasons' & Hkeys).
    exists (log ++ log'), failedPredicateMap'. split_and!; [| done |].
    + rewrite rangeNodes_cons, (mbind_Returns _ _ _ _ Hloop).
      by rewrite Hrest.
    + intros other. rewrite Hkeys. unfold failedPredicateMap1.
      destruct (decide (other = Name node)) as [-> | Hne].
      * rewrite recordFailure_lookup. split; [| by eauto].
        intros _. right. exists node. split; [left | done].
      * rewrite recordFailure_lookup_ne by done. split.
        -- intros [? | (n & Hn & <-)]; [by left | right].
           exists n. split; [by right | done].
        -- intros [? | (n & [-> | Hn]%elem_of_cons & <-)];
             [by left | done | right; by exists n].
Qed.

End NoCpu.

Lemma elem_of_rangeOrder {A} (order : list (string * A) → list (string * A))
    (m : gmap string A) name x :
  rangeOrder order → (name, x) ∈ order (map_to_list m) ↔ m !! name = Some x.
Proof. intros Horder. by rewrite (Horder (map_to_list m)), elem_of_map_to_list. Qed.

Lemma findNodesThatFit_unfold order pod machineToPods predicateFuncs nodes
    extenders log filtered failedPredicateMap :
  rangeNodes order pod machineToPods predicateFuncs 0 (Items nodes) [] ∅
  = (log, Returns (inl (filtered, failedPredicateMap))) →
  findNodesThatFit order pod machineToPods predicateFuncs nodes extenders
  = if (0 <? length filtered)%nat && negb (length extenders =? 0)%nat then
      let chain := rangeExtenders pod 0 extenders filtered in
      (log ++ calls chain,
       match outcome chain with
       | Returns (inl filtered) =>
           Returns ({| Items := filtered |}, failedPredicateMap, None)
       | Returns (inr err) => Returns ({| Items := [] |}, ∅, Some err)
       | Panics => Panics
       end)
    else (log, Returns ({| Items := filtered |}, failedPredicateMap, None)).
Proof.
  intros Hnodes. unfold findNodesThatFit.
  rewrite (mbind_Returns _ _ _ _ Hnodes).
  destruct ((0 <? length filtered)%nat && negb (length extenders =? 0)%nat).
  - destruct (rangeExtenders pod 0 extenders filtered) as [elog [[kept | err] |]];
      cbn; by rewrite ?app_nil_r.
  - cbn. by rewrite app_nil_r.
Qed.

(** C6: the reason recorded for a candidate that a predicate rejects is the
    name of the insufficient resource when the predicate signals one, and
    the name of the predicate when it gives no error.  And when, on each
    candidate, every registered predicate fits or signals too little "cpu"
    and at least one signals it, the Filter Stage leaves no survivor and the
    failure set of each candidate is exactly {"cpu"}. *)
Theorem findNodesThatFit_records_the_reason :
  (∀ pod machineToPods node failedPredicateMap passed name
     (predicate : FitPredicate) later re,
     let existing := default [] (machineToPods !! Name node) in
     (∀ entry : string * FitPredicate,
        entry ∈ passed → entry.2 pod existing (Name node) = (true, None)) →
     predicate pod existing (Name node)
     = (false, Some (ErrInsufficientResource re)) →
     ∃ log failedPredicateMap',
       rangePredicateFuncs pod machineToPods node failedPredicateMap
                           (passed ++ (name, predicate) :: later)
       = (log, Returns (LoopEnds false failedPredicateMap')) ∧
       failedPredicateMap' !! Name node
       = Some ({[ResourceName re]}
               ∪ default ∅ (failedPredicateMap !! Name node)))
  ∧ (∀ pod machineToPods node failedPredicateMap passed name
       (predicate : FitPredicate) later,
       let existing := default [] (machineToPods !! Name node) in
       (∀ entry : string * FitPredicate,
          entry ∈ passed → entry.2 pod existing (Name node) = (true, None)) →
       predicate pod existing (Name node) = (false, None) →
       ∃ log failedPredicateMap',
         rangePredicateFuncs pod machineToPods node failedPredicateMap
                             (passed ++ (name, predicate) :: later)
         = (log, Returns (LoopEnds false failedPredicateMap')) ∧
         failedPredicateMap' !! Name node
         = Some ({[name]} ∪ default ∅ (failedPredicateMap !! Name node)))
  ∧ (∀ order pod machineToPods (predicateFuncs : gmap string FitPredicate)
       nodes extenders,
       let noCpu := Some (ErrInsufficientResource {| ResourceName := "cpu" |}) in
       let existing node := default [] (machineToPods !! Name node) in
       (∀ i, rangeOrder (order i)) →
       (∀ node name predicate,
          node ∈ Items nodes → predicateFuncs !! name = Some predicate →
          predicate pod (existing node) (Name node) = (true, None) ∨
          predicate pod (existing node) (Name node) = (false, noCpu)) →
       (∀ node, node ∈ Items nodes →
          ∃ name predicate,
            predicateFuncs !! name = Some predicate ∧
            predicate pod (existing node) (Name node) = (false, noCpu)) →
       ∃ log failedPredicateMap,
         findNodesThatFit order pod machineToPods predicateFuncs nodes extenders
         = (log, Returns ({| Items := [] |}, failedPredicateMap, None)) ∧
         (∀ node, node ∈ Items nodes →
            failedPredicateMap !! Name node = Some {["cpu"]}) ∧
         (∀ name, is_Some (failedPredicateMap !! name) →
            ∃ node, node ∈ Items nodes ∧ Name node = name)).
Proof.
  split_and!.
  - intros pod machineToPods node failedPredicateMap passed name predicate
      later re existing Hpassed Hpredicate.
    eexists _, _. split.
    + by apply rangePredicateFuncs_break.
    + by rewrite recordFailure_lookup.
  - intros pod machineToPods node failedPredicateMap passed name predicate
      later existing Hpassed Hpredicate.
    eexists _, _. split.
    + by apply rangePredicateFuncs_break.
    + by rewrite recordFailure_lookup.
  - intros order pod machineToPods predicateFuncs nodes extenders noCpu
      existing Horder Hall Hsome.
    destruct (rangeNodes_noCpu pod machineToPods order predicateFuncs
                (Items nodes)) with (i := 0%nat) (filtered := @nil Node)
                                    (failedPredicateMap := (∅ : gmap string (gset string)))
      as (log & failedPredicateMap & Hrun & Hreasons & Hkeys).
    { intros i node Hnode. split.
      - intros [name predicate] Hentry.
        apply (elem_of_rangeOrder (order i)) in Hentry; [| done].
        by apply (Hall node name predicate).
      - destruct (Hsome node Hnode) as (name & predicate & Hlookup & Hcpu).
        exists (name, predicate). split; [| done].
        by apply (elem_of_rangeOrder (order i)). }
    { intros name reasons. by rewrite lookup_empty. }
    exists log, failedPredicateMap. split_and!.
    + by rewrite (findNodesThatFit_unfold _ _ _ _ _ _ _ _ _ Hrun).
    + intros node Hnode.
      destruct (proj2 (Hkeys (Name node))) as [reasons Hlookup].
      { right. by exists node. }
      by rewrite Hlookup, (Hreasons _ _ Hlookup).
    + intros name [Hempty | Hnode]%Hkeys; [| done].
      rewrite lookup_empty in Hempty. by destruct Hempty.
Qed.

Lemma findNodesThatFit_records_the_reason_witness :
  ∃ log failedPredicateMap,
    findNodesThatFit (λ _ entries, entries) Fixtures.thePod ∅
                     {["PodFitsResources" := Fixtures.noCpu]}
                     {| Items := [Fixtures.nodeA; Fixtures.nodeB] |} []
    = (log, Returns ({| Items := [] |}, failedPredicateMap, None)) ∧
    (∀ node, node ∈ [Fixtures.nodeA; Fixtures.nodeB] →
       failedPredicateMap !! Name node = Some {["cpu"]}) ∧
    (∀ name, is_Some (failedPredicateMap !! name) →
       ∃ node, node ∈ [Fixtures.nodeA; Fixtures.nodeB] ∧ Name node = name).
Proof.
  apply (proj2 (proj2 findNodesThatFit_records_the_reason)
           (λ _ entries, entries) Fixtures.thePod ∅
           {["PodFitsResources" := Fixtures.noCpu]}
           {| Items := [Fixtures.nodeA; Fixtures.nodeB] |} []).
  - intros i entries. reflexivity.
  - intros node name predicate _ [<- <-]%lookup_singleton_Some. by right.
  - intros node _. exists "PodFitsResources", Fixtures.noCpu.
    split; [apply lookup_singleton_eq | reflexivity].
Defined.

(** ** The Filter Stage: extenders *)

Lemma rangeExtenders_cons pod i extender extenders filtered :
  rangeExtenders pod i (extender :: extenders) filtered
  = let '(filteredList, err) := Filter extender pod {| Items := filtered |} in
    let rest :=
      match err with
      | Some err => mret (inr err)
      | None =>
          if (length (Items filteredList) =? 0)%nat
          then mret (inl (Items filteredList))
          else rangeExtenders pod (S i) extenders (Items filteredList)
      end in
    (FilterCall i pod {| Items := filtered |} :: calls rest, outcome rest).
Proof.
  cbn [rangeExtenders]. rewrite mbind_call.
  by destruct (Filter extender pod {| Items := filtered |}).
Qed.

(** The sets of nodes handed to the extenders, one after the other. *)
Lemma rangeExtenders_chain pod extenders :
  extenders ≠ [] →
  ∀ i filtered,
  ∃ inputs,
    calls (rangeExtenders pod i extenders filtered)
    = imap (λ j received, FilterCall (i + j) pod {| Items := received |}) inputs ∧
    inputs !! 0%nat = Some filtered ∧
    length inputs ≤ length extenders ∧
    (∀ j received next,
       inputs !! j = Some received → inputs !! S j = Some next →
       ∃ extender,
         extenders !! j = Some extender ∧
         Filter extender pod {| Items := received |}
         = ({| Items := next |}, None) ∧
         next ≠ []) ∧
    (∃ extender received,
       extenders !! (length inputs - 1) = Some extender ∧
       inputs !! (length inputs - 1) = Some received ∧
       match Filter extender pod {| Items := received |} with
       | (_, Some err) =>
           outcome (rangeExtenders pod i extenders filtered) = Returns (inr err)
       | (filteredList, None) =>
           (Items filteredList = [] ∨ length inputs = length extenders) ∧
           outcome (rangeExtenders pod i extenders filtered)
           = Returns (inl (Items filteredList))
       end).
Proof.
  induction extenders as [| extender extenders IH]; [done |].
  intros _ i filtered. rewrite rangeExtenders_cons.
  destruct (Filter extender pod {| Items := filtered |})
    as [filteredList err] eqn:Hfilter.
  assert (Hone : ∀ j received next,
            [filtered] !! j = Some received → [filtered] !! S j = Some next →
            ∃ ext, (extender :: extenders) !! j = Some ext ∧
                   Filter ext pod {| Items := received |}
                   = ({| Items := next |}, None) ∧ next ≠ []).
  { intros j received next _ Hnext. by rewrite lookup_cons, lookup_nil in Hnext. }
  destruct err as [err |];
    [| destruct (Items filteredList) as [| kept0 kept'] eqn:Hkept;
       [| destruct extenders as [| extender' extenders']]].
  - exists [filtered]. cbn. rewrite Nat.add_0_r.
    split_and!; [done | done | lia | done |].
    exists extender, filtered. by rewrite Hfilter.
  - exists [filtered]. cbn. rewrite Nat.add_0_r.
    split_and!; [done | done | lia | done |].
    exists extender, filtered. rewrite Hfilter, Hkept. split_and!; auto.
  - exists [filtered]. cbn. rewrite Nat.add_0_r.
    split_and!; [done | done | lia | done |].
    exists extender, filtered. rewrite Hfilter, Hkept. split_and!; auto.
  - destruct (IH ltac:(done) (S i) (kept0 :: kept'))
      as (inputs & Hcalls & Hhead & Hlen & Hstep & Hlast).
    assert (0 < length inputs) by (by eapply lookup_lt_Some).
    exists (filtered :: inputs). cbn [length Nat.eqb calls outcome fst snd].
    split_and!.
    + rewrite imap_cons, Nat.add_0_r, Hcalls. f_equal.
      apply imap_ext. intros j received _. cbn. f_equal. lia.
    + done.
    + cbn [length] in *. lia.
    + intros [| j] received next Hreceived Hnext.
      * injection Hreceived as <-.
        change (inputs !! 0%nat = Some next) in Hnext.
        rewrite Hhead in Hnext. injection Hnext as <-. exists extender. split; [done |].
        rewrite Hfilter. destruct filteredList as [items]. cbn in Hkept.
        by rewrite Hkept.
      * apply (Hstep j received next Hreceived Hnext).
    + destruct Hlast as (ext & received & Hext & Hreceived & Hfinal).
      exists ext, received.
      replace (S (length inputs) - 1) with (S (length inputs - 1)) by lia.
      split_and!; [done | done |].
      destruct (Filter ext pod {| Items := received |}) as [fl [err |]];
        [done |].
      destruct Hfinal as [Hstop Hout]. split; [| done].
      destruct Hstop as [? | Hall]; [by left | right].
      cbn [length] in *. lia.
Qed.

(** C8: when the predicates leave survivors and extenders are registered,
    the Filter Stage consults the extenders in registration order:
    [inputs] lists the sets of nodes they receive.  The first receives the
    survivors of the predicates, each further one what the one before it
    returned, which is then not empty.  After the last extender consulted
    the stage ends: with that extender's error and empty outputs, or with
    what it returned, which is empty unless it was the last one registered. *)
Theorem findNodesThatFit_extender_chain order pod machineToPods predicateFuncs
    nodes extenders log survivors failedPredicateMap :
  rangeNodes order pod machineToPods predicateFuncs 0 (Items nodes) [] ∅
  = (log, Returns (inl (survivors, failedPredicateMap))) →
  survivors ≠ [] → extenders ≠ [] →
  let stage :=
    findNodesThatFit order pod machineToPods predicateFuncs nodes extenders in
  ∃ inputs,
    calls stage
    = log ++ imap (λ j received, FilterCall j pod {| Items := received |}) inputs ∧
    inputs !! 0%nat = Some survivors ∧
    length inputs ≤ length extenders ∧
    (∀ j received next,
       inputs !! j = Some received → inputs !! S j = Some next →
       ∃ extender,
         extenders !! j = Some extender ∧
         Filter extender pod {| Items := received |}
         = ({| Items := next |}, None) ∧
         next ≠ []) ∧
    (∃ extender received,
       extenders !! (length inputs - 1) = Some extender ∧
       inputs !! (length inputs - 1) = Some received ∧
       match Filter extender pod {| Items := received |} with
       | (_, Some err) =>
           outcome stage = Returns ({| Items := [] |}, ∅, Some err)
       | (filteredList, None) =>
           (Items filteredList = [] ∨ length inputs = length extenders) ∧
           outcome stage
           = Returns ({| Items := Items filteredList |}, failedPredicateMap, None)
       end).
Proof.
  intros Hnodes Hsurvivors Hextenders stage. unfold stage.
  rewrite (findNodesThatFit_unfold _ _ _ _ _ _ _ _ _ Hnodes).
  destruct survivors as [| survivor survivors']; [done |].
  destruct extenders as [| extender extenders']; [done |].
  set (survivors := survivor :: survivors') in *.
  set (extenders := extender :: extenders') in *.
  change ((0 <? length survivors)%nat && negb (length extenders =? 0)%nat)
    with true. cbv iota zeta.
  destruct (rangeExtenders_chain pod extenders Hextenders 0 survivors)
    as (inputs & Hcalls & Hhead & Hlen & Hstep & Hlast).
  exists inputs. cbn [calls outcome fst snd].
  split_and!; [by rewrite Hcalls | done | done | done |].
  destruct Hlast as (ext & received & Hext & Hreceived & Hfinal).
  exists ext, received. split_and!; [done | done |].
  destruct (Filter ext pod {| Items := received |}) as [fl [err |]].
  - by rewrite Hfinal.
  - destruct Hfinal as [Hstop ->]. by split.
Qed.


Lemma findNodesThatFit_extender_chain_witness :
  let extenders := [Fixtures.dropFirst; Fixtures.keepNone; Fixtures.keepAll] in
  let nodes := {| Items := [Fixtures.nodeA; Fixtures.nodeB; Fixtures.nodeC] |} in
  let stage :=
    findNodesThatFit (λ _ entries, entries) Fixtures.thePod ∅
                     {["HostName" := Fixtures.anywhere]} nodes extenders in
  stage
  = ([ PredicateCall "HostName" Fixtures.thePod [] "a";
       PredicateCall "HostName" Fixtures.thePod [] "b";
       PredicateCall "HostName" Fixtures.thePod [] "c";
       FilterCall 0 Fixtures.thePod nodes;
       FilterCall 1 Fixtures.thePod
                  {| Items := [Fixtures.nodeB; Fixtures.nodeC] |} ],
     Returns ({| Items := [] |}, ∅, None))
  ∧ ∃ inputs,
      calls stage
      = [ PredicateCall "HostName" Fixtures.thePod [] "a";
          PredicateCall "HostName" Fixtures.thePod [] "b";
          PredicateCall "HostName" Fixtures.thePod [] "c" ]
        ++ imap (λ j received,
                   FilterCall j Fixtures.thePod {| Items := received |}) inputs ∧
      inputs !! 0%nat = Some (Items nodes).
Proof.
  intros extenders nodes stage. split; [vm_compute; reflexivity |].
  destruct (findNodesThatFit_extender_chain (λ _ entries, entries)
              Fixtures.thePod ∅ {["HostName" := Fixtures.anywhere]} nodes
              extenders
              [ PredicateCall "HostName" Fixtures.thePod [] "a";
                PredicateCall "HostName" Fixtures.thePod [] "b";
                PredicateCall "HostName" Fixtures.thePod [] "c" ]
              (Items nodes) ∅)
    as (inputs & Hcalls & Hhead & _).
  - vm_compute. reflexivity.
  - discriminate.
  - discriminate.
  - exists inputs. split; [exact Hcalls | exact Hhead].
Defined.

(** ** The Filter Stage: who enters the failure map *)

Section FailureMap.

Variables (order : nat → list (string * FitPredicate) → list (string * FitPredicate))
          (pod : api.Pod) (machineToPods : gmap string (list api.Pod))
          (predicateFuncs : gmap string FitPredicate).

Hypothesis order_valid : ∀ i, rangeOrder (order i).

(** The loop over the nodes appends to [filtered] nodes that every
    predicate fits, and adds to the failure map only names of nodes that
    some predicate does not fit. *)
Lemma rangeNodes_result nodes :
  ∀ i filtered failedPredicateMap log filtered' failedPredicateMap',
    rangeNodes order pod machineToPods predicateFuncs i nodes filtered
               failedPredicateMap
    = (log, Returns (inl (filtered', failedPredicateMap'))) →
    (∃ kept, filtered' = filtered ++ kept ∧
             ∀ node, node ∈ kept →
               node ∈ nodes ∧
               fitsAll pod machineToPods predicateFuncs (Name node)) ∧
    (∀ name, is_Some (failedPredicateMap' !! name) →
       is_Some (failedPredicateMap !! name) ∨
       ∃ node, node ∈ nodes ∧ Name node = name ∧
               ¬ fitsAll pod machineToPods predicateFuncs name).
Proof.
  induction nodes as [| node nodes IH];
    intros i filtered failedPredicateMap log filtered' failedPredicateMap' Hrun.
  - injection Hrun as <- <- <-. split; [| by left].
    exists []. split; [by rewrite app_nil_r |]. intros node []%elem_of_nil.
  - rewrite rangeNodes_cons in Hrun.
    destruct (rangePredicateFuncs_result pod machineToPods node
                failedPredicateMap (order i (map_to_list predicateFuncs)))
      as (log1 & r & Hloop & Hr).
    rewrite (mbind_Returns _ _ _ _ Hloop) in Hrun.
    injection Hrun as <- Hout.
    destruct r as [[] failedPredicateMap1 | err].
    + destruct Hr as [-> Hpass].
      destruct (IH _ _ _ _ _ _ (eq_trans (M_eta _) (f_equal _ Hout)))
        as [(kept & -> & Hkept) Hkeys].
      split.
      * exists (node :: kept). split; [by rewrite <- app_assoc |].
        intros n [-> | Hn]%elem_of_cons.
        -- split; [left |]. intros name predicate Hlookup.
           apply (Hpass (name, predicate)).
           by apply (elem_of_rangeOrder (order i)).
        -- destruct (Hkept n Hn). split; [by right | done].
      * intros name [? | (n & Hn & Hname & Hnot)]%Hkeys; [by left | right].
        exists n. split; [by right | done].
    + destruct Hr as (name & predicate & err & Hin & Hpredicate & _ & ->).
      apply (elem_of_rangeOrder (order i)) in Hin; [| done].
      destruct (IH _ _ _ _ _ _ (eq_trans (M_eta _) (f_equal _ Hout)))
        as [(kept & -> & Hkept) Hkeys].
      split.
      * exists kept. split; [done |]. intros n Hn.
        destruct (Hkept n Hn). split; [by right | done].
      * intros other [Hother | (n & Hn & Hname & Hnot)]%Hkeys.
        -- destruct (decide (other = Name node)) as [-> | Hne].
           ++ right. exists node. split_and!; [left | done |].
              intros Hfits. rewrite (Hfits _ _ Hin) in Hpredicate. done.
           ++ left. by rewrite recordFailure_lookup_ne in Hother.
        -- right. exists n. split; [by right | done].
    + done.
Qed.

End FailureMap.

Section ExtenderRejections.

Context {PodLister : Type}.
Variable MapPodsToMachines :
  PodLister → gmap string (list api.Pod) * option error.

(** C10: the failure map the Filter Stage returns is the one its loop over
    the predicates built, whatever the extenders remove afterwards: each of
    its entries names a candidate that some predicate does not fit, and no
    survivor of the predicates has an entry.  So when the extenders reject
    every survivor of the predicates, [Schedule] returns a [FitError] whose
    failure map has no entry for any of these survivors, and no entry at
    all when every candidate had survived the predicates. *)
Theorem Schedule_extender_rejections_leave_no_reason nd (g : genericScheduler)
    pod nodeLister nodes machinesToPods log survivors failedPredicateMap :
  (∀ i, rangeOrder (predicateOrder nd i)) →
  List nodeLister = (nodes, None) →
  Items nodes ≠ [] →
  MapPodsToMachines (pods g) = (machinesToPods, None) →
  rangeNodes (predicateOrder nd) pod machinesToPods (predicates g) 0
             (Items nodes) [] ∅
  = (log, Returns (inl (survivors, failedPredicateMap))) →
  (∀ filteredNodes failedPredicateMap',
     outcome (findNodesThatFit (predicateOrder nd) pod machinesToPods
                               (predicates g) nodes (extenders g))
     = Returns (filteredNodes, failedPredicateMap', None) →
     failedPredicateMap' = failedPredicateMap)
  ∧ (∀ name, is_Some (failedPredicateMap !! name) →
       ∃ node, node ∈ Items nodes ∧ Name node = name ∧
               ¬ fitsAll pod machinesToPods (predicates g) name)
  ∧ (∀ node, node ∈ survivors → failedPredicateMap !! Name node = None)
  ∧ (survivors ≠ [] →
     outcome (rangeExtenders pod 0 (extenders g) survivors) = Returns (inl []) →
     outcome (Schedule MapPodsToMachines nd g pod nodeLister)
     = Returns (EmptyString,
                Some (ErrFit {| Pod := pod;
                                FailedPredicates := failedPredicateMap |})))
  ∧ (survivors = Items nodes → failedPredicateMap = ∅).
Proof.
  intros Horder Hlist Hnodes HmapPods Hrun.
  destruct (rangeNodes_result _ pod machinesToPods (predicates g) Horder
              _ _ _ _ _ _ _ Hrun) as [(kept & Hkept & Hfits) Hkeys].
  rewrite app_nil_l in Hkept. subst kept.
  assert (Hentries : ∀ name, is_Some (failedPredicateMap !! name) →
            ∃ node, node ∈ Items nodes ∧ Name node = name ∧
                    ¬ fitsAll pod machinesToPods (predicates g) name).
  { intros name [Hempty | ?]%Hkeys; [| done].
    rewrite lookup_empty in Hempty. by destruct Hempty. }
  split_and!; [| done | | |].
  - intros filteredNodes failedPredicateMap'.
    rewrite (findNodesThatFit_unfold _ _ _ _ _ _ _ _ _ Hrun).
    destruct ((0 <? length survivors)%nat
              && negb (length (extenders g) =? 0)%nat); cbv zeta.
    + cbn [outcome snd].
      destruct (outcome (rangeExtenders pod 0 (extenders g) survivors))
        as [[kept | err] |]; [| done | done].
      by intros [= _ <-].
    + by intros [= _ <-].
  - intros node Hnode. apply eq_None_not_Some.
    intros (_ & _ & _ & Hnot)%Hentries. by destruct (Hfits node Hnode).
  - intros Hsurvivors Hrejected.
    assert (Hextenders : extenders g ≠ []).
    { intros Hnil. rewrite Hnil in Hrejected. cbn in Hrejected. congruence. }
    assert (Hstage :
              findNodesThatFit (predicateOrder nd) pod machinesToPods
                               (predicates g) nodes (extenders g)
              = (log ++ calls (rangeExtenders pod 0 (extenders g) survivors),
                 Returns ({| Items := [] |}, failedPredicateMap, None))).
    { rewrite (findNodesThatFit_unfold _ _ _ _ _ _ _ _ _ Hrun).
      replace ((0 <? length survivors)%nat
               && negb (length (extenders g) =? 0)%nat) with true.
      - cbv zeta. by rewrite Hrejected.
      - destruct survivors; [done |]. by destruct (extenders g). }
    unfold Schedule. rewrite Hlist.
    destruct (Items nodes) as [| node0 nodes'] eqn:Hitems; [done |].
    cbn [length Nat.eqb]. rewrite HmapPods.
    by rewrite (mbind_Returns _ _ _ _ Hstage).
  - intros ->. apply map_empty. intros name. apply eq_None_not_Some.
    intros (node & Hnode & <- & Hnot)%Hentries.
    by destruct (Hfits node Hnode).
Qed.

End ExtenderRejections.

Lemma Schedule_extender_rejections_leave_no_reason_witness :
  let g := {| predicates := {["HostName" := Fixtures.anywhere]};
              prioritizers := []; extenders := [Fixtures.keepNone];
              pods := tt; random := 0 |} in
  outcome (Schedule Fixtures.noPods Fixtures.inOrder g Fixtures.thePod
                    (Fixtures.listerOf [Fixtures.nodeA; Fixtures.nodeB]))
  = Returns (EmptyString,
             Some (ErrFit {| Pod := Fixtures.thePod; FailedPredicates := ∅ |})).
Proof.
  intros g.
  destruct (Schedule_extender_rejections_leave_no_reason Fixtures.noPods
              Fixtures.inOrder g Fixtures.thePod
              (Fixtures.listerOf [Fixtures.nodeA; Fixtures.nodeB])
              {| Items := [Fixtures.nodeA; Fixtures.nodeB] |} ∅
              [ PredicateCall "HostName" Fixtures.thePod [] "a";
                PredicateCall "HostName" Fixtures.thePod [] "b" ]
              [Fixtures.nodeA; Fixtures.nodeB] ∅)
    as (_ & _ & _ & Hschedule & _).
  - intros i entries. reflexivity.
  - reflexivity.
  - discriminate.
  - reflexivity.
  - vm_compute. reflexivity.
  - apply Hschedule; [discriminate | reflexivity].
Defined.

(** ** What the extenders are asked to prioritize *)

Lemma rangePredicateFuncs_no_Prioritize pod machineToPods node
    failedPredicateMap entries :
  Forall (λ c, isPrioritizeCall c = false)
    (calls (rangePredicateFuncs pod machineToPods node failedPredicateMap
                                entries)).
Proof.
  induction entries as [| [name predicate] entries IH]; [constructor |].
  rewrite rangePredicateFuncs_cons.
  destruct (predicate pod _ (Name node)) as [fit err].
  constructor; [done |]. cbn [calls fst].
  destruct (predicateFailure fit err); [constructor |].
  destruct fit; [exact IH | constructor].
Qed.

Lemma rangeNodes_no_Prioritize order pod machineToPods predicateFuncs nodes :
  ∀ i filtered failedPredicateMap,
    Forall (λ c, isPrioritizeCall c = false)
      (calls (rangeNodes order pod machineToPods predicateFuncs i nodes filtered
                         failedPredicateMap)).
Proof.
  induction nodes as [| node nodes IH]; intros i filtered failedPredicateMap;
    [constructor |].
  rewrite rangeNodes_cons. apply Forall_calls_mbind.
  - apply rangePredicateFuncs_no_Prioritize.
  - intros [fits failedPredicateMap' | err]; [apply IH | constructor].
Qed.

Lemma rangeExtenders_no_Prioritize pod extenders :
  ∀ i filtered,
    Forall (λ c, isPrioritizeCall c = false) (calls (rangeExtenders pod i extenders filtered)).
Proof.
  induction extenders as [| extender extenders IH]; intros i filtered;
    [constructor |].
  rewrite rangeExtenders_cons.
  destruct (Filter extender pod _) as [filteredList [err |]];
    (constructor; [done |]); cbn [calls fst]; [constructor |].
  destruct (length (Items filteredList) =? 0)%nat; [constructor | apply IH].
Qed.

Lemma findNodesThatFit_no_Prioritize order pod machineToPods predicateFuncs
    nodes extenders :
  Forall (λ c, isPrioritizeCall c = false)
    (calls (findNodesThatFit order pod machineToPods predicateFuncs nodes
                             extenders)).
Proof.
  unfold findNodesThatFit. apply Forall_calls_mbind.
  - apply rangeNodes_no_Prioritize.
  - intros [[filtered failedPredicateMap] | err]; [| constructor].
    destruct ((0 <? length filtered)%nat && negb (length extenders =? 0)%nat);
      [| constructor].
    apply Forall_calls_mbind; [apply rangeExtenders_no_Prioritize |].
    intros [kept | err]; constructor.
Qed.

Section PrioritizeCalls.

Context {PodLister : Type}.

Lemma launchExtenders_calls pod nodes extenders :
  ∀ i, launchExtenders pod nodes i extenders
       = (imap (λ j _, PrioritizeCall (i + j) pod nodes) extenders,
          Returns ((λ ext, Prioritize ext pod nodes) <$> extenders)).
Proof.
  induction extenders as [| ext extenders IH]; intros i; [done |].
  cbn [launchExtenders]. rewrite mbind_call, (mbind_Returns _ _ _ _ (IH (S i))).
  cbn. rewrite app_nil_r, Nat.add_0_r. do 2 f_equal.
  apply imap_ext. intros j ? _. cbn. f_equal. lia.
Qed.

(** The calls of [PrioritizeNodes]: calls of priority functions and then,
    at most, one call of [Prioritize] per extender, on the nodes the
    lister yields; exactly these when a ranking is returned. *)
Lemma PrioritizeNodes_calls finished scoreOrder pod machinesToPods
    (podLister : PodLister) priorityConfigs lister extenders :
  let stage :=
    PrioritizeNodes finished scoreOrder pod machinesToPods podLister
                    priorityConfigs (Some lister) extenders in
  let asked := imap (λ j _, PrioritizeCall j pod (List lister).1) extenders in
  ∃ log,
    Forall (λ c, isPrioritizeCall c = false) log ∧
    (calls stage = log ∨ calls stage = log ++ asked) ∧
    (∀ ranking, (List lister).2 = None →
                outcome stage = Returns (ranking, None) →
                calls stage = log ++ asked).
Proof.
  intros stage asked. unfold stage, PrioritizeNodes.
  destruct ((length priorityConfigs =? 0)%nat && (length extenders =? 0)%nat)
    eqn:Hspecial.
  - apply andb_true_iff in Hspecial as [_ Hnone%Nat.eqb_eq].
    apply nil_length_inv in Hnone. subst extenders.
    exists []. unfold EqualPriority.
    destruct (List lister) as [nodes [err |]];
      (split_and!; [constructor | by left | done]).
  - clear Hspecial.
    destruct (launchPriorities_returns pod machinesToPods podLister
                (Some lister) priorityConfigs 0) as (log & tasks & Hlaunch & Hlog).
    rewrite (mbind_Returns _ _ _ _ Hlaunch).
    exists log. split; [done |].
    destruct (length (errsAtCheck finished tasks) =? 0)%nat eqn:Herrs;
      cbn [negb].
    + destruct (length extenders =? 0)%nat eqn:Hextenders; cbn [negb].
      * apply Nat.eqb_eq, nil_length_inv in Hextenders. subst extenders.
        subst asked. cbn [imap]. simpl_M. split; [by left | done].
      * destruct (List lister) as [nodes [err |]] eqn:Hlist.
        -- simpl_M. split; [by left | done].
        -- rewrite (mbind_Returns _ _ _ _ (launchExtenders_calls pod nodes
                                             extenders 0)).
           subst asked. simpl_M. cbn [Nat.add].
           split; [by right | done].
    + simpl_M. split; [by left |]. intros ranking _ [= _ Hnil].
      destruct (errsAtCheck finished tasks); done.
Qed.

End PrioritizeCalls.

Lemma selectHost_calls random priorityList :
  calls (selectHost random priorityList) = [].
Proof.
  unfold selectHost.
  repeat match goal with
         | |- context [if ?b then _ else _] => destruct b
         | |- context [match ?o with Some _ => _ | None => _ end] => destruct o
         end; reflexivity.
Qed.

Section ScheduleExtenders.

Context {PodLister : Type}.
Variable MapPodsToMachines :
  PodLister → gmap string (list api.Pod) * option error.

(** C2, amended: in an attempt of [Schedule] whose Filter Stage returns
    [survivors], every call of an extender's [Prioritize] is passed
    exactly [survivors], the list the stage re-fetches from the lister
    [Schedule] hands it; and when the attempt returns a host, every
    registered extender has been passed [survivors]. *)
Theorem Schedule_extenders_prioritize_survivors nd (g : genericScheduler) pod
    nodeLister nodes machinesToPods log survivors failedPredicateMap :
  List nodeLister = (nodes, None) →
  MapPodsToMachines (pods g) = (machinesToPods, None) →
  findNodesThatFit (predicateOrder nd) pod machinesToPods (predicates g)
                   nodes (extenders g)
  = (log, Returns (survivors, failedPredicateMap, None)) →
  let attempt := Schedule MapPodsToMachines nd g pod nodeLister in
  (∀ i p received,
     PrioritizeCall i p received ∈ calls attempt →
     i < length (extenders g) ∧ p = pod ∧ received = survivors)
  ∧ (∀ host,
       outcome attempt = Returns (host, None) →
       ∀ i, i < length (extenders g) →
            PrioritizeCall i pod survivors ∈ calls attempt).
Proof.
  intros Hlist HmapPods Hfilter attempt.
  pose proof (findNodesThatFit_no_Prioritize (predicateOrder nd) pod
                machinesToPods (predicates g) nodes (extenders g)) as Hlog.
  rewrite Hfilter in Hlog. cbn [calls fst] in Hlog.
  rewrite Forall_forall in Hlog.
  unfold attempt, Schedule. rewrite Hlist.
  destruct (length (Items nodes) =? 0)%nat.
  { split; [intros i p received []%elem_of_nil | done]. }
  rewrite HmapPods, (mbind_Returns _ _ _ _ Hfilter). cbv beta iota.
  destruct (length (Items survivors) =? 0)%nat.
  { simpl_M. split; [| done].
    intros i p received Hin. by specialize (Hlog _ Hin). }
  destruct (PrioritizeNodes_calls (finishedAtCheck nd) (scoreOrder nd) pod
              machinesToPods (pods g) (prioritizers g)
              (FakeNodeLister survivors) (extenders g))
    as (plog & Hplog & Hcalls & Hall).
  rewrite Forall_forall in Hplog. cbn [FakeNodeLister List fst snd] in *.
  destruct (PrioritizeNodes _ _ _ _ _ _ _ _) as [pcalls [[ranking err] |]];
    cbn [calls outcome fst snd] in *.
  - rewrite mbind_pair. cbv beta iota.
    set (rest := match err with
                 | Some err => mret (EmptyString, Some err)
                 | None => selectHost (random g) ranking
                 end).
    assert (Hrest : calls rest = []).
    { unfold rest. destruct err; [done | apply selectHost_calls]. }
    cbn [calls outcome fst snd]. rewrite Hrest, app_nil_r.
    split.
    + intros i p received [Hin | Hin]%elem_of_app;
        [by specialize (Hlog _ Hin) |].
      destruct Hcalls as [-> | ->]; [by specialize (Hplog _ Hin) |].
      apply elem_of_app in Hin as [Hin | Hin];
        [by specialize (Hplog _ Hin) |].
      apply elem_of_lookup_imap in Hin as (j & ext & [= -> -> ->] & Hext).
      split; [by eapply lookup_lt_Some | done].
    + intros host Hhost i Hi. unfold rest in Hhost.
      destruct err as [err |]; [done |].
      rewrite (Hall ranking eq_refl eq_refl).
      apply elem_of_app. right. apply elem_of_app. right.
      destruct (lookup_lt_is_Some_2 (extenders g) i Hi) as [ext Hext].
      apply elem_of_lookup_imap. by exists i, ext.
  - simpl_M. split; [| done].
    intros i p received [Hin | Hin]%elem_of_app;
      [by specialize (Hlog _ Hin) |].
    destruct Hcalls as [-> | ->]; [by specialize (Hplog _ Hin) |].
    apply elem_of_app in Hin as [Hin | Hin];
      [by specialize (Hplog _ Hin) |].
    apply elem_of_lookup_imap in Hin as (j & ext & [= -> -> ->] & Hext).
    split; [by eapply lookup_lt_Some | done].
Qed.

End ScheduleExtenders.

Lemma Schedule_extenders_prioritize_survivors_witness :
  let g := {| predicates := {["NoDiskConflict" := Fixtures.notOnB]};
              prioritizers := []; extenders := [Fixtures.keepAll];
              pods := tt; random := 0 |} in
  let attempt :=
    Schedule Fixtures.noPods Fixtures.inOrder g Fixtures.thePod
             (Fixtures.listerOf [Fixtures.nodeA; Fixtures.nodeB]) in
  outcome attempt = Returns ("a", None)
  ∧ PrioritizeCall 0 Fixtures.thePod {| Items := [Fixtures.nodeA] |}
    ∈ calls attempt.
Proof.
  intros g attempt. split; [vm_compute; reflexivity |].
  assert (Hfilter :
            findNodesThatFit (predicateOrder Fixtures.inOrder) Fixtures.thePod ∅
                             (predicates g)
                             {| Items := [Fixtures.nodeA; Fixtures.nodeB] |}
                             (extenders g)
            = ([ PredicateCall "NoDiskConflict" Fixtures.thePod [] "a";
                 PredicateCall "NoDiskConflict" Fixtures.thePod [] "b";
                 FilterCall 0 Fixtures.thePod {| Items := [Fixtures.nodeA] |} ],
               Returns ({| Items := [Fixtures.nodeA] |},
                        {["b" := {["NoDiskConflict"]}]}, None)))
    by (vm_compute; reflexivity).
  apply (proj2 (Schedule_extenders_prioritize_survivors Fixtures.noPods
                  Fixtures.inOrder g Fixtures.thePod
                  (Fixtures.listerOf [Fixtures.nodeA; Fixtures.nodeB])
                  _ _ _ _ _ eq_refl eq_refl Hfilter) "a").
  - vm_compute. reflexivity.
  - cbn. lia.
Defined.

(** C2 as stated fails: of the candidates "a" and "b" the predicate rejects
    "b"; the one registered extender is asked to prioritize the survivor
    "a" alone, and never the full candidate list. *)
Lemma Schedule_extender_sees_survivors_counterexample :
  let g := {| predicates := {["NoDiskConflict" := Fixtures.notOnB]};
              prioritizers := []; extenders := [Fixtures.keepAll];
              pods := tt; random := 0 |} in
  let candidates := [Fixtures.nodeA; Fixtures.nodeB] in
  let attempt :=
    Schedule Fixtures.noPods Fixtures.inOrder g Fixtures.thePod
             (Fixtures.listerOf candidates) in
  extenders g ≠ []
  ∧ calls attempt
    = [ PredicateCall "NoDiskConflict" Fixtures.thePod [] "a";
        PredicateCall "NoDiskConflict" Fixtures.thePod [] "b";
        FilterCall 0 Fixtures.thePod {| Items := [Fixtures.nodeA] |};
        PrioritizeCall 0 Fixtures.thePod {| Items := [Fixtures.nodeA] |} ]
  ∧ PrioritizeCall 0 Fixtures.thePod {| Items := candidates |} ∉ calls attempt.
Proof.
  intros g candidates attempt.
  assert (Hcalls : calls attempt
    = [ PredicateCall "NoDiskConflict" Fixtures.thePod [] "a";
        PredicateCall "NoDiskConflict" Fixtures.thePod [] "b";
        FilterCall 0 Fixtures.thePod {| Items := [Fixtures.nodeA] |};
        PrioritizeCall 0 Fixtures.thePod {| Items := [Fixtures.nodeA] |} ])
    by (vm_compute; reflexivity).
  split_and!; [discriminate | exact Hcalls |].
  rewrite Hcalls. intros Hin.
  repeat (apply elem_of_cons in Hin as [Hin | Hin]; [discriminate |]).
  by apply elem_of_nil in Hin.
Qed.

(** ** More on the Filter Stage *)

Lemma fitsAllb_fitsAll pod machineToPods predicateFuncs node :
  fitsAllb pod machineToPods predicateFuncs node = true ↔
  fitsAll pod machineToPods predicateFuncs node.
Proof.
  unfold fitsAllb, fitsAll. rewrite forallb_forall. split.
  - intros Hall name predicate Hlookup.
    apply elem_of_map_to_list, list_elem_of_In in Hlookup.
    specialize (Hall _ Hlookup). cbn [snd] in Hall.
    by destruct (predicate pod _ node) as [[] [e |]].
  - intros Hall [name predicate] Hin%list_elem_of_In%elem_of_map_to_list.
    cbn [snd]. by rewrite (Hall name predicate Hin).
Qed.

Lemma rangeNodes_app order pod machineToPods predicateFuncs before after :
  ∀ i filtered failedPredicateMap,
    rangeNodes order pod machineToPods predicateFuncs i (before ++ after)
               filtered failedPredicateMap
    = rangeNodes order pod machineToPods predicateFuncs i before filtered
                 failedPredicateMap
      ≫= λ r, match r with
              | inl (filtered, failedPredicateMap) =>
                  rangeNodes order pod machineToPods predicateFuncs
                             (i + length before) after filtered
                             failedPredicateMap
              | inr err => mret (inr err)
              end.
Proof.
  induction before as [| node before IH]; intros i filtered failedPredicateMap.
  - cbn [app rangeNodes length]. by rewrite mbind_mret, Nat.add_0_r.
  - rewrite <- app_comm_cons, !rangeNodes_cons.
    destruct (rangePredicateFuncs_result pod machineToPods node
                failedPredicateMap (order i (map_to_list predicateFuncs)))
      as (log & r & Hloop & _).
    rewrite !(mbind_Returns _ _ _ _ Hloop).
    destruct r as [fits failedPredicateMap' | err].
    + rewrite IH. cbn [length].
      replace (S i + length before) with (i + S (length before)) by lia.
      set (first := rangeNodes order pod machineToPods predicateFuncs (S i)
                      before _ failedPredicateMap').
      destruct first as [log' [r' |]]; simpl_M.
      * by rewrite app_assoc.
      * reflexivity.
    + by simpl_M.
Qed.

(** The loop over the nodes returns. *)
Lemma rangeNodes_returns order pod machineToPods predicateFuncs nodes :
  ∀ i filtered failedPredicateMap,
    ∃ log r,
      rangeNodes order pod machineToPods predicateFuncs i nodes filtered
                 failedPredicateMap
      = (log, Returns r).
Proof.
  induction nodes as [| node nodes IH]; intros i filtered failedPredicateMap.
  - by eexists _, _.
  - rewrite rangeNodes_cons.
    destruct (rangePredicateFuncs_result pod machineToPods node
                failedPredicateMap (order i (map_to_list predicateFuncs)))
      as (log & r & Hloop & _).
    rewrite (mbind_Returns _ _ _ _ Hloop).
    destruct r as [fits failedPredicateMap' | err]; [| by eexists _, _].
    destruct (IH (S i) (if fits then filtered ++ [node] else filtered)
                 failedPredicateMap') as (log' & r' & ->).
    by eexists _, _.
Qed.

Lemma rangeExtenders_returns pod extenders :
  ∀ i filtered,
    ∃ log r, rangeExtenders pod i extenders filtered = (log, Returns r).
Proof.
  induction extenders as [| extender extenders IH]; intros i filtered.
  - by eexists _, _.
  - rewrite rangeExtenders_cons.
    destruct (Filter extender pod _) as [filteredList [err |]];
      [by eexists _, _ |].
    destruct (length (Items filteredList) =? 0)%nat; [by eexists _, _ |].
    destruct (IH (S i) (Items filteredList)) as (log & r & ->).
    by eexists _, _.
Qed.

Lemma findNodesThatFit_returns order pod machineToPods predicateFuncs nodes
    extenders :
  ∃ log filtered failedPredicateMap err,
    findNodesThatFit order pod machineToPods predicateFuncs nodes extenders
    = (log, Returns (filtered, failedPredicateMap, err)) ∧
    (err ≠ None → filtered = {| Items := [] |} ∧ failedPredicateMap = ∅).
Proof.
  destruct (rangeNodes_returns order pod machineToPods predicateFuncs
              (Items nodes) 0 [] ∅) as (log & r & Hnodes).
  destruct r as [[filtered failedPredicateMap] | err].
  - rewrite (findNodesThatFit_unfold _ _ _ _ _ _ _ _ _ Hnodes).
    destruct ((0 <? length filtered)%nat && negb (length extenders =? 0)%nat).
    + cbv zeta.
      destruct (rangeExtenders_returns pod extenders 0 filtered)
        as (elog & r & ->). cbn [calls outcome fst snd].
      destruct r as [kept | err]; eexists _, _, _, _; (split; [reflexivity |]);
        [done | by intros _].
    + eexists _, _, _, _. split; [reflexivity | done].
  - unfold findNodesThatFit. rewrite (mbind_Returns _ _ _ _ Hnodes).
    eexists _, _, _, _. split; [reflexivity | by intros _].
Qed.

(** X4: the Filter Stage always returns, and when it returns an error it
    returns no node and an empty failure map with it. *)
Theorem findNodesThatFit_error_discards_results order pod machineToPods
    predicateFuncs nodes extenders :
  ∃ filtered failedPredicateMap err,
    outcome (findNodesThatFit order pod machineToPods predicateFuncs nodes
                              extenders)
    = Returns (filtered, failedPredicateMap, err) ∧
    (err ≠ None → filtered = {| Items := [] |} ∧ failedPredicateMap = ∅).
Proof.
  destruct (findNodesThatFit_returns order pod machineToPods predicateFuncs
              nodes extenders)
    as (log & filtered & failedPredicateMap & err & -> & Hdiscard).
  by exists filtered, failedPredicateMap, err.
Qed.

Lemma rangePredicateFuncs_abort pod machineToPods node failedPredicateMap
    passed name (predicate : FitPredicate) fit err e later :
  let existing := default [] (machineToPods !! Name node) in
  (∀ entry : string * FitPredicate,
     entry ∈ passed → entry.2 pod existing (Name node) = (true, None)) →
  predicate pod existing (Name node) = (fit, err) →
  predicateFailure fit err = Some e →
  rangePredicateFuncs pod machineToPods node failedPredicateMap
                      (passed ++ (name, predicate) :: later)
  = ((λ entry : string * FitPredicate,
        PredicateCall entry.1 pod existing (Name node))
       <$> (passed ++ [(name, predicate)]),
     Returns (LoopReturns e)).
Proof.
  intros existing Hpassed Hpredicate Hfailure.
  induction passed as [| [name' predicate'] passed IH].
  - rewrite !app_nil_l, rangePredicateFuncs_cons. fold existing.
    rewrite Hpredicate, Hfailure. reflexivity.
  - rewrite <- !app_comm_cons, rangePredicateFuncs_cons. fold existing.
    pose proof (Hpassed (name', predicate') ltac:(left)) as Hpass.
    cbn [snd] in Hpass. rewrite Hpass.
    cbn [predicateFailure negb]. rewrite IH; [done |].
    intros entry Hentry. apply Hpassed. by right.
Qed.

(** X5: a predicate that errs (with another error than an insufficient
    resource, or with an insufficient resource although it fits) ends the
    Filter Stage there: no predicate is asked any more, for this candidate
    or a later one, and the stage returns the error with no node and an
    empty failure map, whatever the earlier candidates had recorded. *)
Theorem findNodesThatFit_aborts_on_predicate_error order pod machineToPods
    predicateFuncs nodes extenders before node after log filtered
    failedPredicateMap passed name (predicate : FitPredicate) fit err e later :
  let existing := default [] (machineToPods !! Name node) in
  Items nodes = before ++ node :: after →
  rangeNodes order pod machineToPods predicateFuncs 0 before [] ∅
  = (log, Returns (inl (filtered, failedPredicateMap))) →
  order (length before) (map_to_list predicateFuncs)
  = passed ++ (name, predicate) :: later →
  (∀ entry : string * FitPredicate,
     entry ∈ passed → entry.2 pod existing (Name node) = (true, None)) →
  predicate pod existing (Name node) = (fit, err) →
  predicateFailure fit err = Some e →
  findNodesThatFit order pod machineToPods predicateFuncs nodes extenders
  = (log ++ ((λ entry : string * FitPredicate,
                PredicateCall entry.1 pod existing (Name node))
               <$> (passed ++ [(name, predicate)])),
     Returns ({| Items := [] |}, ∅, Some e))
  ∧ ((∃ re, err = Some (ErrInsufficientResource re) ∧ fit = true ∧
            e = ErrUnexpectedFit re)
     ∨ (err = Some e ∧ ∀ re, e ≠ ErrInsufficientResource re)).
Proof.
  intros existing Hitems Hbefore Horder Hpassed Hpredicate Hfailure. split.
  - unfold findNodesThatFit.
    rewrite Hitems, rangeNodes_app, (mbind_Returns _ _ _ _ Hbefore).
    cbv beta iota. rewrite Nat.add_0_l, rangeNodes_cons, Horder.
    rewrite (mbind_Returns _ _ _ _
               (rangePredicateFuncs_abort pod machineToPods node
                  failedPredicateMap passed name predicate fit err e later
                  Hpassed Hpredicate Hfailure)).
    by simpl_M.
  - destruct err as [[| | re | | | |] |]; cbn in Hfailure;
      try (injection Hfailure as <-; right; split; [done | by intros re']);
      [| done].
    destruct fit; [| done]. injection Hfailure as <-. left. by exists re.
Qed.

Lemma findNodesThatFit_aborts_on_predicate_error_witness :
  let predicateFuncs : gmap string FitPredicate :=
    {["Broken" := Fixtures.broken]} in
  findNodesThatFit (predicateOrder Fixtures.inOrder) Fixtures.thePod ∅
                   predicateFuncs
                   {| Items := [Fixtures.nodeA; Fixtures.nodeB] |}
                   [Fixtures.keepAll]
  = ([PredicateCall "Broken" Fixtures.thePod [] "a"],
     Returns ({| Items := [] |}, ∅, Some (ErrOther "broken"))).
Proof.
  intros predicateFuncs.
  assert (Horder :
            predicateOrder Fixtures.inOrder (length (@nil Node))
              (map_to_list predicateFuncs)
            = [] ++ ("Broken", Fixtures.broken) :: [])
    by (vm_compute; reflexivity).
  assert (Hpassed : ∀ entry : string * FitPredicate,
            entry ∈ @nil (string * FitPredicate) →
            entry.2 Fixtures.thePod
                    (default [] ((∅ : gmap string (list api.Pod))
                                   !! Name Fixtures.nodeA))
                    (Name Fixtures.nodeA) = (true, None)).
  { intros entry Hin. apply elem_of_nil in Hin. destruct Hin. }
  pose proof (findNodesThatFit_aborts_on_predicate_error
                  (predicateOrder Fixtures.inOrder) Fixtures.thePod ∅
                  predicateFuncs
                  {| Items := [Fixtures.nodeA; Fixtures.nodeB] |}
                  [Fixtures.keepAll] [] Fixtures.nodeA [Fixtures.nodeB]
                  [] [] ∅ [] "Broken" Fixtures.broken false
                  (Some (ErrOther "broken")) (ErrOther "broken") []
                  eq_refl eq_refl Horder Hpassed eq_refl eq_refl) as [Hrun _].
  exact Hrun.
Defined.

Section Survivors.

Variables (order : nat → list (string * FitPredicate) → list (string * FitPredicate))
          (pod : api.Pod) (machineToPods : gmap string (list api.Pod))
          (predicateFuncs : gmap string FitPredicate).

Hypothesis order_valid : ∀ i, rangeOrder (order i).

Lemma rangeNodes_filter nodes :
  ∀ i filtered failedPredicateMap log filtered' failedPredicateMap',
    rangeNodes order pod machineToPods predicateFuncs i nodes filtered
               failedPredicateMap
    = (log, Returns (inl (filtered', failedPredicateMap'))) →
    filtered'
    = filtered
      ++ List.filter (λ node, fitsAllb pod machineToPods predicateFuncs (Name node))
                     nodes ∧
    (∀ name, is_Some (failedPredicateMap' !! name) ↔
       is_Some (failedPredicateMap !! name) ∨
       ∃ node, node ∈ nodes ∧ Name node = name ∧
               fitsAllb pod machineToPods predicateFuncs name = false).
Proof.
  induction nodes as [| node nodes IH];
    intros i filtered failedPredicateMap log filtered' failedPredicateMap' Hrun.
  - injection Hrun as <- <- <-. split; [by rewrite app_nil_r |].
    intros name. split; [by left |].
    intros [? | (node & []%elem_of_nil & _)]; done.
  - rewrite rangeNodes_cons in Hrun.
    destruct (rangePredicateFuncs_result pod machineToPods node
                failedPredicateMap (order i (map_to_list predicateFuncs)))
      as (log1 & r & Hloop & Hr).
    rewrite (mbind_Returns _ _ _ _ Hloop) in Hrun.
    injection Hrun as <- Hout.
    destruct r as [[] failedPredicateMap1 | err]; [| | done].
    + destruct Hr as [-> Hpass].
      assert (Hfits : fitsAllb pod machineToPods predicateFuncs (Name node) = true).
      { apply fitsAllb_fitsAll. intros name predicate Hlookup.
        apply (Hpass (name, predicate)).
        by apply (elem_of_rangeOrder (order i)). }
      destruct (IH _ _ _ _ _ _ (eq_trans (M_eta _) (f_equal _ Hout)))
        as [-> Hkeys].
      cbn [List.filter]. rewrite Hfits. split; [by rewrite <- app_assoc |].
      intros name. rewrite Hkeys. split.
      * intros [? | (n & Hn & Hname & Hnot)]; [by left | right].
        exists n. split; [by right | done].
      * intros [? | (n & [-> | Hn]%elem_of_cons & Hname & Hnot)]; [by left | |].
        -- subst name. congruence.
        -- right. by exists n.
    + destruct Hr as (name & predicate & err & Hin & Hpredicate & _ & ->).
      apply (elem_of_rangeOrder (order i)) in Hin; [| done].
      assert (Hfits : fitsAllb pod machineToPods predicateFuncs (Name node) = false).
      { apply not_true_is_false. intros Hall%fitsAllb_fitsAll.
        rewrite (Hall _ _ Hin) in Hpredicate. done. }
      destruct (IH _ _ _ _ _ _ (eq_trans (M_eta _) (f_equal _ Hout)))
        as [-> Hkeys].
      cbn [List.filter]. rewrite Hfits. split; [done |].
      intros other. rewrite Hkeys.
      destruct (decide (other = Name node)) as [-> | Hne].
      * rewrite recordFailure_lookup. split; [| by eauto].
        intros _. right. exists node. split; [left | done].
      * rewrite recordFailure_lookup_ne by done. split.
        -- intros [? | (n & Hn & Hname & Hnot)]; [by left | right].
           exists n. split; [by right | done].
        -- intros [? | (n & [-> | Hn]%elem_of_cons & Hname & Hnot)];
             [by left | done | right; by exists n].
Qed.

Lemma findNodesThatFit_survivors nodes extenders filteredNodes
    failedPredicateMap :
  outcome (findNodesThatFit order pod machineToPods predicateFuncs nodes
                            extenders)
  = Returns (filteredNodes, failedPredicateMap, None) →
  (extenders = [] →
     Items filteredNodes
     = List.filter (λ node, fitsAllb pod machineToPods predicateFuncs (Name node))
                   (Items nodes))
  ∧ (∀ name, is_Some (failedPredicateMap !! name) ↔
       ∃ node, node ∈ Items nodes ∧ Name node = name ∧
               fitsAllb pod machineToPods predicateFuncs name = false).
Proof.
  destruct (rangeNodes_returns order pod machineToPods predicateFuncs
              (Items nodes) 0 [] ∅) as (log & r & Hnodes).
  destruct r as [[filtered failedPredicateMap0] | err].
  - rewrite (findNodesThatFit_unfold _ _ _ _ _ _ _ _ _ Hnodes).
    destruct (rangeNodes_filter _ _ _ _ _ _ _ Hnodes) as [Hfiltered Hkeys].
    rewrite app_nil_l in Hfiltered.
    assert (Hkeys' : ∀ name, is_Some (failedPredicateMap0 !! name) ↔
              ∃ node, node ∈ Items nodes ∧ Name node = name ∧
                      fitsAllb pod machineToPods predicateFuncs name = false).
    { intros name. rewrite Hkeys, lookup_empty. split; [| by right].
      intros [[] | ?]; done. }
    destruct ((0 <? length filtered)%nat && negb (length extenders =? 0)%nat)
      eqn:Hguard.
    + cbv zeta. cbn [outcome snd].
      destruct (outcome (rangeExtenders pod 0 extenders filtered))
        as [[kept | err] |]; [| done | done].
      intros [= <- <-]. split; [| done].
      intros ->. cbn in Hguard. by rewrite andb_false_r in Hguard.
    + intros [= <- <-]. by split.
  - unfold findNodesThatFit. by rewrite (mbind_Returns _ _ _ _ Hnodes).
Qed.

(** X6: when the Filter Stage returns without an error, its failure map
    has an entry for exactly the names of the candidates that some
    predicate does not fit; and without extenders the nodes it returns are
    exactly the candidates that every predicate fits, in the order of the
    candidate list. *)
Theorem findNodesThatFit_keeps_the_fitting nodes extenders filteredNodes
    failedPredicateMap :
  outcome (findNodesThatFit order pod machineToPods predicateFuncs nodes
                            extenders)
  = Returns (filteredNodes, failedPredicateMap, None) →
  (extenders = [] →
     Items filteredNodes
     = List.filter (λ node, fitsAllb pod machineToPods predicateFuncs (Name node))
                   (Items nodes))
  ∧ (∀ name, is_Some (failedPredicateMap !! name) ↔
       ∃ node, node ∈ Items nodes ∧ Name node = name ∧
               fitsAllb pod machineToPods predicateFuncs name = false).
Proof. apply findNodesThatFit_survivors. Qed.

End Survivors.

Lemma findNodesThatFit_keeps_the_fitting_witness :
  let predicateFuncs : gmap string FitPredicate :=
    {["NoDiskConflict" := Fixtures.notOnB]} in
  let nodes := {| Items := [Fixtures.nodeA; Fixtures.nodeB] |} in
  let failedPredicateMap : gmap string (gset string) :=
    {["b" := {["NoDiskConflict"]}]} in
  ([] = @nil SchedulerExtender →
     Items {| Items := [Fixtures.nodeA] |}
     = List.filter (λ node, fitsAllb Fixtures.thePod ∅ predicateFuncs (Name node))
                   (Items nodes))
  ∧ (∀ name, is_Some (failedPredicateMap !! name) ↔
       ∃ node, node ∈ Items nodes ∧ Name node = name ∧
               fitsAllb Fixtures.thePod ∅ predicateFuncs name = false).
Proof.
  intros predicateFuncs nodes failedPredicateMap.
  apply (findNodesThatFit_keeps_the_fitting
           (predicateOrder Fixtures.inOrder) Fixtures.thePod ∅ predicateFuncs).
  - intros i entries. reflexivity.
  - vm_compute. reflexivity.
Defined.

Lemma rangePredicateFuncs_only_predicates pod machineToPods node
    failedPredicateMap entries :
  Forall (λ c, ∃ name p existing n, c = PredicateCall name p existing n)
    (calls (rangePredicateFuncs pod machineToPods node failedPredicateMap
                                entries)).
Proof.
  induction entries as [| [name predicate] entries IH]; [constructor |].
  rewrite rangePredicateFuncs_cons.
  destruct (predicate pod _ (Name node)) as [fit err].
  constructor; [by eexists _, _, _, _ |]. cbn [calls fst].
  destruct (predicateFailure fit err); [constructor |].
  destruct fit; [exact IH | constructor].
Qed.

Lemma rangeNodes_only_predicates order pod machineToPods predicateFuncs nodes :
  ∀ i filtered failedPredicateMap,
    Forall (λ c, ∃ name p existing n, c = PredicateCall name p existing n)
      (calls (rangeNodes order pod machineToPods predicateFuncs i nodes filtered
                         failedPredicateMap)).
Proof.
  induction nodes as [| node nodes IH]; intros i filtered failedPredicateMap;
    [constructor |].
  rewrite rangeNodes_cons. apply Forall_calls_mbind.
  - apply rangePredicateFuncs_only_predicates.
  - intros [fits failedPredicateMap' | err]; [apply IH | constructor].
Qed.

Lemma rangeExtenders_inputs pod extenders :
  ∀ i filtered,
    filtered ≠ [] →
    Forall (λ c, ∃ j nodes, c = FilterCall j pod nodes ∧ Items nodes ≠ [] ∧
                            i ≤ j < i + length extenders)
      (calls (rangeExtenders pod i extenders filtered)).
Proof.
  induction extenders as [| extender extenders IH]; intros i filtered Hne;
    [constructor |].
  rewrite rangeExtenders_cons.
  destruct (Filter extender pod _) as [filteredList [err |]];
    (constructor; [exists i, {| Items := filtered |}; cbn; split_and!; [done | done | lia | lia] |]);
    cbn [calls fst]; [constructor |].
  destruct (Nat.eqb_spec (length (Items filteredList)) 0) as [? | Hlen];
    [constructor |].
  eapply Forall_impl; [apply IH; by destruct (Items filteredList) |].
  intros c (j & nodes & -> & ? & ?). exists j, nodes. cbn. split_and!; [done | done | lia | lia].
Qed.

(** X7: the Filter Stage never hands an empty list of nodes to an extender:
    every call of an extender's [Filter] is for the pod being scheduled, on
    a non-empty list, by a registered extender. *)
Theorem findNodesThatFit_never_filters_nothing order pod machineToPods
    predicateFuncs nodes extenders j p received :
  FilterCall j p received
  ∈ calls (findNodesThatFit order pod machineToPods predicateFuncs nodes
                            extenders) →
  p = pod ∧ Items received ≠ [] ∧ j < length extenders.
Proof.
  unfold findNodesThatFit.
  pose proof (rangeNodes_only_predicates order pod machineToPods predicateFuncs
                (Items nodes) 0 [] ∅) as Hpred.
  destruct (rangeNodes order pod machineToPods predicateFuncs 0 (Items nodes) [] ∅)
    as [log [[[filtered failedPredicateMap] | err] |]]; cbn [calls fst] in Hpred;
    rewrite Forall_forall in Hpred.
  - rewrite mbind_pair. cbv beta iota.
    destruct filtered as [| survivor filtered'].
    { simpl_M. by intros (? & ? & ? & ? & ?)%Hpred. }
    destruct (length extenders =? 0)%nat; cbn [length Nat.ltb Nat.leb andb negb].
    { simpl_M. by intros (? & ? & ? & ? & ?)%Hpred. }
    pose proof (rangeExtenders_inputs pod extenders 0 (survivor :: filtered')
                  ltac:(done)) as Hext.
    destruct (rangeExtenders pod 0 extenders (survivor :: filtered'))
      as [elog [[kept | err] |]]; cbn [calls fst] in Hext;
      rewrite Forall_forall in Hext; simpl_M;
      (intros [(? & ? & ? & ? & ?)%Hpred | Hin]%elem_of_app; [done |]);
      destruct (Hext _ Hin) as (j' & nodes' & [= -> -> ->] & ? & ?);
      split_and!; [done | done | lia | done | done | lia | done | done | lia].
  - simpl_M. by intros (? & ? & ? & ? & ?)%Hpred.
  - cbn. by intros (? & ? & ? & ? & ?)%Hpred.
Qed.

Lemma findNodesThatFit_never_filters_nothing_witness :
  Fixtures.thePod = Fixtures.thePod
  ∧ Items {| Items := [Fixtures.nodeA] |} ≠ []
  ∧ 0 < length [Fixtures.keepAll].
Proof.
  apply (findNodesThatFit_never_filters_nothing
           (predicateOrder Fixtures.inOrder) Fixtures.thePod ∅
           {["NoDiskConflict" := Fixtures.notOnB]}
           {| Items := [Fixtures.nodeA; Fixtures.nodeB] |}).
  assert (Hcalls :
            calls (findNodesThatFit (predicateOrder Fixtures.inOrder)
                     Fixtures.thePod ∅ {["NoDiskConflict" := Fixtures.notOnB]}
                     {| Items := [Fixtures.nodeA; Fixtures.nodeB] |}
                     [Fixtures.keepAll])
            = [ PredicateCall "NoDiskConflict" Fixtures.thePod [] "a";
                PredicateCall "NoDiskConflict" Fixtures.thePod [] "b";
                FilterCall 0 Fixtures.thePod {| Items := [Fixtures.nodeA] |} ])
    by (vm_compute; reflexivity).
  rewrite Hcalls. do 2 right. left.
Defined.

Section Reasons.

Variables (order : nat → list (string * FitPredicate) → list (string * FitPredicate))
          (pod : api.Pod) (machineToPods : gmap string (list api.Pod))
          (predicateFuncs : gmap string FitPredicate).

Hypothesis order_valid : ∀ i, rangeOrder (order i).

Lemma rangeNodes_reasons nodes :
  ∀ i filtered failedPredicateMap log filtered' failedPredicateMap',
    rangeNodes order pod machineToPods predicateFuncs i nodes filtered
               failedPredicateMap
    = (log, Returns (inl (filtered', failedPredicateMap'))) →
    (∀ name reasons, failedPredicateMap !! name = Some reasons →
       reasons ≠ ∅ ∧
       ∀ reason, reason ∈ reasons →
                 rejectedFor pod machineToPods predicateFuncs name reason) →
    ∀ name reasons, failedPredicateMap' !! name = Some reasons →
      reasons ≠ ∅ ∧
      ∀ reason, reason ∈ reasons →
                rejectedFor pod machineToPods predicateFuncs name reason.
Proof.
  induction nodes as [| node nodes IH];
    intros i filtered failedPredicateMap log filtered' failedPredicateMap'
      Hrun Hinv.
  - by injection Hrun as <- <- <-.
  - rewrite rangeNodes_cons in Hrun.
    destruct (rangePredicateFuncs_result pod machineToPods node
                failedPredicateMap (order i (map_to_list predicateFuncs)))
      as (log1 & r & Hloop & Hr).
    rewrite (mbind_Returns _ _ _ _ Hloop) in Hrun.
    injection Hrun as <- Hout.
    destruct r as [[] failedPredicateMap1 | err]; [| | done].
    + destruct Hr as [-> _].
      exact (IH _ _ _ _ _ _ (eq_trans (M_eta _) (f_equal _ Hout)) Hinv).
    + destruct Hr as (name & predicate & err & Hin & Hpredicate & Hfailure & ->).
      apply (elem_of_rangeOrder (order i)) in Hin; [| done].
      apply (IH _ _ _ _ _ _ (eq_trans (M_eta _) (f_equal _ Hout))).
      intros other reasons.
      destruct (decide (other = Name node)) as [-> | Hne].
      * rewrite recordFailure_lookup. intros [= <-]. split.
        { apply (non_empty_inhabited_L (recordedReason name err)).
          apply elem_of_union_l. by apply elem_of_singleton. }
        intros reason [->%elem_of_singleton | Hold]%elem_of_union.
        -- by exists name, predicate, err.
        -- destruct (failedPredicateMap !! Name node) as [old |] eqn:Hlookup;
             cbn [default] in Hold; [| by apply elem_of_empty in Hold].
           by apply (Hinv _ _ Hlookup).
      * rewrite recordFailure_lookup_ne by done. apply Hinv.
Qed.

Lemma rangeNodes_single_reason nodes :
  ∀ i filtered failedPredicateMap log filtered' failedPredicateMap',
    rangeNodes order pod machineToPods predicateFuncs i nodes filtered
               failedPredicateMap
    = (log, Returns (inl (filtered', failedPredicateMap'))) →
    NoDup (Name <$> nodes) →
    (∀ name, is_Some (failedPredicateMap !! name) → name ∉ Name <$> nodes) →
    (∀ name reasons, failedPredicateMap !! name = Some reasons →
                     ∃ reason, reasons = {[reason]}) →
    ∀ name reasons, failedPredicateMap' !! name = Some reasons →
                    ∃ reason, reasons = {[reason]}.
Proof.
  induction nodes as [| node nodes IH];
    intros i filtered failedPredicateMap log filtered' failedPredicateMap'
      Hrun Hnodup Hfresh Hinv.
  - by injection Hrun as <- <- <-.
  - rewrite rangeNodes_cons in Hrun.
    destruct (rangePredicateFuncs_result pod machineToPods node
                failedPredicateMap (order i (map_to_list predicateFuncs)))
      as (log1 & r & Hloop & Hr).
    rewrite (mbind_Returns _ _ _ _ Hloop) in Hrun.
    injection Hrun as <- Hout.
    rewrite fmap_cons in Hnodup. apply NoDup_cons in Hnodup as [Hnotin Hnodup].
    destruct r as [[] failedPredicateMap1 | err]; [| | done].
    + destruct Hr as [-> _].
      apply (IH _ _ _ _ _ _ (eq_trans (M_eta _) (f_equal _ Hout)) Hnodup);
        [| done].
      intros name Hsome Hin. apply (Hfresh name Hsome).
      rewrite fmap_cons. by right.
    + destruct Hr as (name & predicate & err & _ & _ & _ & ->).
      assert (Hnone : failedPredicateMap !! Name node = None).
      { apply eq_None_not_Some. intros Hsome. apply (Hfresh _ Hsome).
        rewrite fmap_cons. left. }
      apply (IH _ _ _ _ _ _ (eq_trans (M_eta _) (f_equal _ Hout)) Hnodup).
      * intros other. destruct (decide (other = Name node)) as [-> | Hne];
          [done |].
        rewrite recordFailure_lookup_ne by done.
        intros Hsome Hin. apply (Hfresh other Hsome).
        rewrite fmap_cons. by right.
      * intros other reasons.
        destruct (decide (other = Name node)) as [-> | Hne].
        -- rewrite recordFailure_lookup, Hnone. cbn [default].
           intros [= <-]. exists (recordedReason name err).
           by rewrite (right_id_L ∅ (∪)).
        -- rewrite recordFailure_lookup_ne by done. apply Hinv.
Qed.

(** X8: in the failure map the Filter Stage returns, every candidate that
    has an entry has a non-empty set of reasons, and each reason is the
    name of a registered predicate that rejects the candidate, or the
    resource that predicate finds insufficient.  When the candidates have
    distinct names the set holds exactly one reason: the loop over the
    predicates breaks at the first rejection. *)
Theorem findNodesThatFit_failure_sets nodes extenders filteredNodes
    failedPredicateMap name reasons :
  outcome (findNodesThatFit order pod machineToPods predicateFuncs nodes
                            extenders)
  = Returns (filteredNodes, failedPredicateMap, None) →
  failedPredicateMap !! name = Some reasons →
  reasons ≠ ∅
  ∧ (∀ reason, reason ∈ reasons →
               rejectedFor pod machineToPods predicateFuncs name reason)
  ∧ (NoDup (Name <$> Items nodes) → ∃ reason, reasons = {[reason]}).
Proof.
  intros Hstage Hlookup.
  destruct (rangeNodes_returns order pod machineToPods predicateFuncs
              (Items nodes) 0 [] ∅) as (log & r & Hnodes).
  destruct r as [[filtered failedPredicateMap0] | err].
  - assert (failedPredicateMap0 = failedPredicateMap) as ->.
    { rewrite (findNodesThatFit_unfold _ _ _ _ _ _ _ _ _ Hnodes) in Hstage.
      destruct ((0 <? length filtered)%nat && negb (length extenders =? 0)%nat).
      - cbv zeta in Hstage. cbn [outcome snd] in Hstage.
        destruct (outcome (rangeExtenders pod 0 extenders filtered))
          as [[kept | err] |]; [| done | done].
        by injection Hstage as _ <-.
      - by injection Hstage as _ <-. }
    pose proof (rangeNodes_reasons _ _ _ _ _ _ _ Hnodes) as Hreasons.
    destruct (Hreasons ltac:(by intros ? ?; rewrite lookup_empty) _ _ Hlookup)
      as [Hne Hjust].
    split_and!; [done | done |].
    intros Hnodup.
    apply (rangeNodes_single_reason _ _ _ _ _ _ _ Hnodes Hnodup) with name;
      [| | done]; intros ?; rewrite lookup_empty; [by intros [] | done].
  - unfold findNodesThatFit in Hstage.
    by rewrite (mbind_Returns _ _ _ _ Hnodes) in Hstage.
Qed.

End Reasons.

Lemma findNodesThatFit_failure_sets_witness :
  let predicateFuncs : gmap string FitPredicate :=
    {["NoDiskConflict" := Fixtures.notOnB]} in
  let nodes := {| Items := [Fixtures.nodeA; Fixtures.nodeB] |} in
  let reasons : gset string := {["NoDiskConflict"]} in
  reasons ≠ ∅
  ∧ (∀ reason, reason ∈ reasons →
               rejectedFor Fixtures.thePod ∅ predicateFuncs "b" reason)
  ∧ (NoDup (Name <$> Items nodes) → ∃ reason, reasons = {[reason]}).
Proof.
  intros predicateFuncs nodes reasons.
  assert (Hlookup :
            ({["b" := reasons]} : gmap string (gset string)) !! "b"
            = Some reasons) by apply lookup_singleton_eq.
  apply (findNodesThatFit_failure_sets
           (predicateOrder Fixtures.inOrder) Fixtures.thePod ∅ predicateFuncs
           ltac:(intros i entries; reflexivity) nodes []
           {| Items := [Fixtures.nodeA] |} {["b" := reasons]} "b" reasons);
    [| exact Hlookup].
  vm_compute. reflexivity.
Defined.

(** ** More on the Priority Stage *)

Lemma wrap64_add_r x y : wrap64 (x + wrap64 y) = wrap64 (x + y).
Proof. rewrite (Z.add_comm x (wrap64 y)), wrap64_add_l. f_equal. lia. Qed.

Lemma wrap64_idemp x : wrap64 (wrap64 x) = wrap64 x.
Proof.
  replace (wrap64 (wrap64 x)) with (wrap64 (wrap64 x + 0))
    by (f_equal; apply Z.add_0_r).
  rewrite wrap64_add_l. f_equal. apply Z.add_0_r.
Qed.

Lemma weightedSum_absent weight host prioritizedList :
  host ∉ Host <$> prioritizedList → weightedSum weight host prioritizedList = 0%Z.
Proof.
  induction prioritizedList as [| entry prioritizedList IH]; [done |].
  rewrite fmap_cons, not_elem_of_cons. intros [Hne Hnotin].
  cbn [weightedSum foldr]. rewrite decide_False by done. by apply IH.
Qed.

(** The score [addScores] leaves for a host: what was there plus the
    weighted scores of the host in the list, wrapped; a host the list does
    not mention keeps what it had. *)
Lemma addScores_lookup weight prioritizedList :
  ∀ combinedScores host,
    addScores weight combinedScores prioritizedList !! host
    = if decide (host ∈ Host <$> prioritizedList)
      then Some (wrap64 (default 0%Z (combinedScores !! host)
                         + weightedSum weight host prioritizedList))
      else combinedScores !! host.
Proof.
  induction prioritizedList as [| entry prioritizedList IH];
    intros combinedScores host.
  - cbn. rewrite decide_False; [done | apply not_elem_of_nil].
  - rewrite addScores_cons, IH. cbn [weightedSum foldr]. rewrite fmap_cons.
    destruct (decide (Host entry = host)) as [<- | Hne].
    + rewrite (decide_True (P := Host entry ∈ Host entry :: _)) by left.
      rewrite lookup_insert_eq. cbn [default id].
      destruct (decide (Host entry ∈ Host <$> prioritizedList)) as [Hin | Hnotin].
      * f_equal. rewrite wrap64_add_l.
        rewrite <- Z.add_assoc, (Z.add_comm (wrap64 _)), Z.add_assoc, wrap64_add_r.
        f_equal. unfold weightedSum. lia.
      * f_equal. pose proof (weightedSum_absent weight _ _ Hnotin) as Hzero.
        unfold weightedSum in Hzero. rewrite Hzero, wrap64_add_r.
        f_equal. lia.
    + rewrite lookup_insert_ne by done.
      destruct (decide (host ∈ Host <$> prioritizedList)) as [Hin | Hnotin].
      * rewrite decide_True by (by right). done.
      * rewrite decide_False; [done |]. rewrite not_elem_of_cons. by split.
Qed.

Lemma combinedSum_unreported host answers :
  existsb (reportsHost host) answers = false → combinedSum host answers = 0%Z.
Proof.
  induction answers as [| [weight [prioritizedList [err |]]] answers IH];
    [done | |]; cbn [existsb reportsHost combinedSum foldr orb].
  - exact IH.
  - intros [Hnotin Hrest]%orb_false_iff.
    apply bool_decide_eq_false in Hnotin.
    rewrite (weightedSum_absent _ _ _ Hnotin).
    fold (combinedSum host answers). by rewrite (IH Hrest).
Qed.

(** [combinedScores] after a wave of goroutines with the given answers. *)
Lemma join_lookup answers :
  ∀ (combinedScores : gmap string Z) host,
    foldl (λ combinedScores task,
             match task with
             | (weight, (prioritizedList, None)) =>
                 addScores weight combinedScores prioritizedList
             | (_, (_, Some _)) => combinedScores
             end) combinedScores answers !! host
    = if existsb (reportsHost host) answers
      then Some (wrap64 (default 0%Z (combinedScores !! host)
                         + combinedSum host answers))
      else combinedScores !! host.
Proof.
  induction answers as [| [weight [prioritizedList [err |]]] answers IH];
    intros combinedScores host; [done | |];
    cbn [foldl existsb reportsHost combinedSum foldr orb];
    fold (combinedSum host answers); rewrite IH; [done |].
  rewrite addScores_lookup.
  destruct (existsb (reportsHost host) answers) eqn:Hrest.
  - rewrite orb_true_r.
    destruct (decide (host ∈ Host <$> prioritizedList)) as [Hin | Hnotin].
    + cbn [default id]. f_equal. rewrite wrap64_add_l. f_equal. lia.
    + by rewrite (weightedSum_absent _ _ _ Hnotin).
  - rewrite orb_false_r, (combinedSum_unreported _ _ Hrest).
    destruct (decide (host ∈ Host <$> prioritizedList)) as [Hin | Hnotin].
    + rewrite bool_decide_eq_true_2 by done. f_equal. f_equal. lia.
    + by rewrite bool_decide_eq_false_2.
Qed.

Lemma join_app (answers1 answers2 : list (Z * (HostPriorityList * option error)))
    (combinedScores : gmap string Z) :
  foldl (λ combinedScores task,
           match task with
           | (weight, (prioritizedList, None)) =>
               addScores weight combinedScores prioritizedList
           | (_, (_, Some _)) => combinedScores
           end) combinedScores (answers1 ++ answers2)
  = foldl (λ combinedScores task,
             match task with
             | (weight, (prioritizedList, None)) =>
                 addScores weight combinedScores prioritizedList
             | (_, (_, Some _)) => combinedScores
             end)
          (foldl (λ combinedScores task,
                    match task with
                    | (weight, (prioritizedList, None)) =>
                        addScores weight combinedScores prioritizedList
                    | (_, (_, Some _)) => combinedScores
                    end) combinedScores answers1) answers2.
Proof. apply foldl_app. Qed.

Lemma joinExtenders_answers pod nodes extenders combinedScores :
  joinExtenders combinedScores ((λ ext, Prioritize ext pod nodes) <$> extenders)
  = foldl (λ combinedScores task,
             match task with
             | (weight, (prioritizedList, None)) =>
                 addScores weight combinedScores prioritizedList
             | (_, (_, Some _)) => combinedScores
             end) combinedScores (extenderAnswers pod nodes extenders).
Proof.
  unfold joinExtenders, extenderAnswers. revert combinedScores.
  induction extenders as [| ext extenders IH]; intros combinedScores; [done |].
  rewrite !fmap_cons. cbn [foldl].
  destruct (Prioritize ext pod nodes) as [[prioritizedList weight] [err |]];
    apply IH.
Qed.

Section Ranking.

Context {PodLister : Type}.

Lemma launchPriorities_answers pod machinesToPods (podLister : PodLister)
    nodeLister priorityConfigs :
  ∀ i, outcome (launchPriorities pod machinesToPods podLister nodeLister i
                                 priorityConfigs)
       = Returns (priorityAnswers pod machinesToPods podLister nodeLister
                                  priorityConfigs).
Proof.
  induction priorityConfigs as [| config priorityConfigs IH]; intros i; [done |].
  change (priorityAnswers pod machinesToPods podLister nodeLister
            (config :: priorityConfigs))
    with (match (if (Weight config =? 0)%Z then None
                 else Some (Weight config,
                            Function config pod machinesToPods podLister
                                     nodeLister)) with
          | Some answer =>
              answer :: priorityAnswers pod machinesToPods podLister nodeLister
                                        priorityConfigs
          | None => priorityAnswers pod machinesToPods podLister nodeLister
                                    priorityConfigs
          end).
  cbn [launchPriorities].
  destruct (Weight config =? 0)%Z; [apply IH |].
  rewrite mbind_call. cbn [outcome snd].
  destruct (launchPriorities_returns pod machinesToPods podLister nodeLister
              priorityConfigs (S i)) as (log & tasks & Hlaunch & _).
  specialize (IH (S i)). rewrite Hlaunch in IH. cbn [outcome snd] in IH.
  injection IH as ->. rewrite (mbind_Returns _ _ _ _ Hlaunch). by simpl_M.
Qed.

Lemma PrioritizeNodes_ranks finished scoreOrder pod machinesToPods
    (podLister : PodLister) priorityConfigs lister nodes extenders :
  priorityConfigs ≠ [] ∨ extenders ≠ [] →
  rangeOrder scoreOrder →
  List lister = (nodes, None) →
  errsAtCheck finished
    (priorityAnswers pod machinesToPods podLister (Some lister) priorityConfigs)
  = [] →
  let answers :=
    priorityAnswers pod machinesToPods podLister (Some lister) priorityConfigs
    ++ extenderAnswers pod nodes extenders in
  ∃ ranking,
    outcome (PrioritizeNodes finished scoreOrder pod machinesToPods podLister
                             priorityConfigs (Some lister) extenders)
    = Returns (ranking, None) ∧
    NoDup (Host <$> ranking) ∧
    ∀ host score,
      {| Host := host; Score := score |} ∈ ranking ↔
      existsb (reportsHost host) answers = true ∧
      score = wrap64 (combinedSum host answers).
Proof.
  intros Hregistered Horder Hlist Herrs answers.
  set (tasks := priorityAnswers pod machinesToPods podLister (Some lister)
                                priorityConfigs) in *.
  set (step := λ (combinedScores : gmap string Z)
                 (task : Z * (HostPriorityList * option error)),
         match task with
         | (weight, (prioritizedList, None)) =>
             addScores weight combinedScores prioritizedList
         | (_, (_, Some _)) => combinedScores
         end).
  assert (Hfinal : ∀ log,
    let ranking :=
      (λ '(host, score), {| Host := host; Score := score |})
        <$> scoreOrder (map_to_list (foldl step ∅ answers)) in
    ∃ ranking',
      outcome (log, Returns (ranking, @None error)) = Returns (ranking', None) ∧
      NoDup (Host <$> ranking') ∧
      ∀ host score,
        {| Host := host; Score := score |} ∈ ranking' ↔
        existsb (reportsHost host) answers = true ∧
        score = wrap64 (combinedSum host answers)).
  { intros log ranking. exists ranking. split; [done |]. split.
    - assert (Hhosts : Host <$> ranking
                       = (scoreOrder (map_to_list (foldl step ∅ answers))).*1).
      { unfold ranking. rewrite <- list_fmap_compose.
        apply list_fmap_ext. by intros ? [? ?] ?. }
      rewrite Hhosts, (Horder _). apply NoDup_fst_map_to_list.
    - intros host score. unfold ranking. rewrite list_elem_of_fmap. split.
      + intros ([host' score'] & [= -> ->] & Hin).
        apply (elem_of_rangeOrder scoreOrder) in Hin; [| done].
        unfold step in Hin. rewrite join_lookup, lookup_empty in Hin.
        destruct (existsb (reportsHost host') answers); [| done].
        injection Hin as <-. cbn [default]. split; [done |]. f_equal.
      + intros [Hreported ->]. exists (host, wrap64 (combinedSum host answers)).
        split; [done |]. apply (elem_of_rangeOrder scoreOrder); [done |].
        unfold step. by rewrite join_lookup, lookup_empty, Hreported. }
  unfold PrioritizeNodes.
  replace ((length priorityConfigs =? 0)%nat && (length extenders =? 0)%nat)
    with false.
  2:{ symmetry. apply andb_false_iff.
      destruct Hregistered as [Hne | Hne]; [left | right];
        apply Nat.eqb_neq; intros Hlen%nil_length_inv; done. }
  destruct (launchPriorities_returns pod machinesToPods podLister (Some lister)
              priorityConfigs 0) as (log & tasks' & Hlaunch & _).
  pose proof (launchPriorities_answers pod machinesToPods podLister (Some lister)
                priorityConfigs 0) as Hanswers.
  rewrite Hlaunch in Hanswers. injection Hanswers as ->. fold tasks in Hlaunch.
  rewrite (mbind_Returns _ _ _ _ Hlaunch), Herrs.
  cbn [length Nat.eqb negb].
  destruct (length extenders =? 0)%nat eqn:Hextenders; cbn [negb].
  - apply Nat.eqb_eq, nil_length_inv in Hextenders. subst extenders.
    simpl_M. unfold answers, extenderAnswers. rewrite fmap_nil, app_nil_r.
    unfold joinPriorities. fold step.
    specialize (Hfinal []). unfold answers, extenderAnswers in Hfinal.
    rewrite fmap_nil, app_nil_r in Hfinal. exact Hfinal.
  - rewrite Hlist.
    rewrite (mbind_Returns _ _ _ _ (launchExtenders_calls pod nodes extenders 0)).
    simpl_M. rewrite joinExtenders_answers. unfold joinPriorities.
    fold step. rewrite <- (foldl_app step). fold answers.
    exact (Hfinal []).
Qed.

(** X9: the ranking of the Priority Stage, when line 222 sees no error and
    the lister answers: one entry for each host that a priority function
    of nonzero weight or an extender lists without erring, and no entry
    twice for a host; the score of a host is the sum, wrapped to 64 bits,
    of its scores times the weights, over these priority functions and
    extenders.  Extenders that err add nothing and raise no error. *)
Theorem PrioritizeNodes_ranking finished scoreOrder pod machinesToPods
    (podLister : PodLister) priorityConfigs lister nodes extenders :
  priorityConfigs ≠ [] ∨ extenders ≠ [] →
  rangeOrder scoreOrder →
  List lister = (nodes, None) →
  errsAtCheck finished
    (priorityAnswers pod machinesToPods podLister (Some lister) priorityConfigs)
  = [] →
  let answers :=
    priorityAnswers pod machinesToPods podLister (Some lister) priorityConfigs
    ++ extenderAnswers pod nodes extenders in
  ∃ ranking,
    outcome (PrioritizeNodes finished scoreOrder pod machinesToPods podLister
                             priorityConfigs (Some lister) extenders)
    = Returns (ranking, None) ∧
    NoDup (Host <$> ranking) ∧
    ∀ host score,
      {| Host := host; Score := score |} ∈ ranking ↔
      existsb (reportsHost host) answers = true ∧
      score = wrap64 (combinedSum host answers).
Proof. apply PrioritizeNodes_ranks. Qed.

End Ranking.

Lemma PrioritizeNodes_ranking_witness :
  let priorityConfigs :=
    [ {| Function := Fixtures.preferAll; Weight := 2 |} ] in
  let lister := Fixtures.listerOf [Fixtures.nodeA] in
  let nodes := {| Items := [Fixtures.nodeA] |} in
  let answers :=
    priorityAnswers Fixtures.thePod ∅ tt (Some lister) priorityConfigs
    ++ extenderAnswers Fixtures.thePod nodes [Fixtures.keepAll] in
  wrap64 (combinedSum "a" answers) = 21%Z
  ∧ ∃ ranking,
      outcome (PrioritizeNodes [] (λ entries, entries) Fixtures.thePod ∅ tt
                               priorityConfigs (Some lister) [Fixtures.keepAll])
      = Returns (ranking, None) ∧
      NoDup (Host <$> ranking) ∧
      ∀ host score,
        {| Host := host; Score := score |} ∈ ranking ↔
        existsb (reportsHost host) answers = true ∧
        score = wrap64 (combinedSum host answers).
Proof.
  intros priorityConfigs lister nodes answers.
  split; [vm_compute; reflexivity |].
  apply (PrioritizeNodes_ranking [] (λ entries, entries) Fixtures.thePod ∅ tt
           priorityConfigs lister nodes [Fixtures.keepAll]).
  - left. discriminate.
  - intros entries. reflexivity.
  - reflexivity.
  - reflexivity.
Defined.

Section PriorityCalls.

Context {PodLister : Type}.

Lemma launchPriorities_log pod machinesToPods (podLister : PodLister)
    nodeLister priorityConfigs :
  ∀ i,
    let log := calls (launchPriorities pod machinesToPods podLister nodeLister
                                       i priorityConfigs) in
    (∀ c, c ∈ log ↔
          ∃ j config, c = PriorityCall (i + j) pod nodeLister ∧
                      priorityConfigs !! j = Some config ∧
                      Weight config ≠ 0%Z) ∧
    NoDup log.
Proof.
  induction priorityConfigs as [| config priorityConfigs IH]; intros i log.
  - split; [| constructor]. intros c. split; [intros []%elem_of_nil |].
    by intros (j & config & _ & ? & _).
  - destruct (IH (S i)) as [Hmem Hnodup]. unfold log.
    cbn [launchPriorities].
    destruct (Z.eqb_spec (Weight config) 0) as [Hzero | Hnonzero].
    + split; [| done]. intros c. rewrite Hmem. split.
      * intros (j & config' & -> & Hlookup & Hweight).
        exists (S j), config'. split_and!; [f_equal; lia | done | done].
      * intros ([| j] & config' & -> & Hlookup & Hweight).
        { injection Hlookup as <-. done. }
        exists j, config'. split_and!; [f_equal; lia | done | done].
    + destruct (launchPriorities_returns pod machinesToPods podLister nodeLister
                  priorityConfigs (S i)) as (rest & tasks & Hlaunch & _).
      rewrite Hlaunch in Hmem, Hnodup. cbn [calls fst] in Hmem, Hnodup.
      rewrite mbind_call, (mbind_Returns _ _ _ _ Hlaunch). simpl_M.
      split.
      * intros c. rewrite elem_of_cons, Hmem. split.
        -- intros [-> | (j & config' & -> & Hlookup & Hweight)].
           ++ exists 0%nat, config. split_and!; [f_equal; lia | done | done].
           ++ exists (S j), config'. split_and!; [f_equal; lia | done | done].
        -- intros ([| j] & config' & -> & Hlookup & Hweight).
           ++ left. f_equal. lia.
           ++ right. exists j, config'. split_and!; [f_equal; lia | done | done].
      * constructor; [| done]. rewrite Hmem.
        intros (j & config' & [= Hindex] & _). lia.
Qed.

(** The calls of the Priority Stage: those of the launching loop and then,
    at most, one [Prioritize] per extender on the nodes of the lister. *)
Lemma PrioritizeNodes_calls_shape finished scoreOrder pod machinesToPods
    (podLister : PodLister) priorityConfigs nodeLister extenders :
  ∃ asked,
    calls (PrioritizeNodes finished scoreOrder pod machinesToPods podLister
                           priorityConfigs nodeLister extenders)
    = calls (launchPriorities pod machinesToPods podLister nodeLister 0
                              priorityConfigs) ++ asked ∧
    (asked = [] ∨
     ∃ lister nodes,
       nodeLister = Some lister ∧ List lister = (nodes, None) ∧
       asked = imap (λ j _, PrioritizeCall j pod nodes) extenders).
Proof.
  unfold PrioritizeNodes.
  destruct ((length priorityConfigs =? 0)%nat && (length extenders =? 0)%nat)
    eqn:Hspecial.
  - apply andb_true_iff in Hspecial as [Hnone%Nat.eqb_eq _].
    apply nil_length_inv in Hnone. subst priorityConfigs.
    exists []. split; [| by left]. unfold EqualPriority.
    destruct nodeLister as [lister |]; [| done].
    by destruct (List lister) as [nodes [err |]].
  - clear Hspecial.
    destruct (launchPriorities_returns pod machinesToPods podLister nodeLister
                priorityConfigs 0) as (log & tasks & Hlaunch & _).
    rewrite (mbind_Returns _ _ _ _ Hlaunch), Hlaunch. cbn [calls fst].
    destruct (negb (length (errsAtCheck finished tasks) =? 0)%nat).
    { exists []. simpl_M. split; [by rewrite ?app_nil_r | by left]. }
    destruct (negb (length extenders =? 0)%nat).
    + destruct nodeLister as [lister |].
      * destruct (List lister) as [nodes [err |]] eqn:Hlist.
        -- exists []. simpl_M. split; [by rewrite ?app_nil_r | by left].
        -- rewrite (mbind_Returns _ _ _ _ (launchExtenders_calls pod nodes
                                             extenders 0)).
           exists (imap (λ j _, PrioritizeCall j pod nodes) extenders).
           simpl_M. cbn [Nat.add]. split; [done |]. right.
           by exists lister, nodes.
      * exists []. simpl_M. split; [by rewrite ?app_nil_r | by left].
    + exists []. simpl_M. split; [by rewrite ?app_nil_r | by left].
Qed.

(** X10: the Priority Stage calls the priority function of every registered
    config of nonzero weight, with the pod and the lister it was given, and
    no function of a config of weight zero; and it makes no call twice. *)
Theorem PrioritizeNodes_calls_nonzero_weights finished scoreOrder pod
    machinesToPods (podLister : PodLister) priorityConfigs nodeLister extenders :
  let stage :=
    PrioritizeNodes finished scoreOrder pod machinesToPods podLister
                    priorityConfigs nodeLister extenders in
  (∀ j p lister,
     PriorityCall j p lister ∈ calls stage ↔
     p = pod ∧ lister = nodeLister ∧
     ∃ config, priorityConfigs !! j = Some config ∧ Weight config ≠ 0%Z)
  ∧ NoDup (calls stage).
Proof.
  intros stage. unfold stage.
  destruct (PrioritizeNodes_calls_shape finished scoreOrder pod machinesToPods
              podLister priorityConfigs nodeLister extenders)
    as (asked & -> & Hasked).
  destruct (launchPriorities_log pod machinesToPods podLister nodeLister
              priorityConfigs 0) as [Hmem Hnodup].
  assert (Hprioritize : ∀ c, c ∈ asked → ∃ j p nodes, c = PrioritizeCall j p nodes).
  { destruct Hasked as [-> | (lister & nodes & _ & _ & ->)];
      [intros c []%elem_of_nil |].
    intros c (j & ext & -> & _)%elem_of_lookup_imap. by eexists _, _, _. }
  split.
  - intros j p lister. rewrite elem_of_app, Hmem. split.
    + intros [(j' & config & [= -> -> ->] & Hlookup & Hweight) | Hin].
      * split_and!; [done | done |]. by exists config.
      * by destruct (Hprioritize _ Hin) as (? & ? & ? & ?).
    + intros (-> & -> & config & Hlookup & Hweight). left.
      by exists j, config.
  - apply NoDup_app. split_and!; [done | |].
    + intros c (j & config & -> & _)%Hmem Hin.
      by destruct (Hprioritize _ Hin) as (? & ? & ? & ?).
    + destruct Hasked as [-> | (lister & nodes & _ & _ & ->)]; [constructor |].
      apply NoDup_alt. intros i1 i2 c.
      rewrite !list_lookup_imap.
      destruct (extenders !! i1), (extenders !! i2); cbn; try done.
      by intros [= <-] [= ->].
Qed.

(** X11: the Priority Stage asks an extender to prioritize only when it has
    a lister and the lister answers, and then shows it, for the pod being
    scheduled, the very list the lister yields; with a [nil] lister no
    extender is asked. *)
Theorem PrioritizeNodes_asks_with_the_listed finished scoreOrder pod
    machinesToPods (podLister : PodLister) priorityConfigs nodeLister extenders
    j p nodes :
  PrioritizeCall j p nodes
  ∈ calls (PrioritizeNodes finished scoreOrder pod machinesToPods podLister
                           priorityConfigs nodeLister extenders) →
  p = pod ∧ j < length extenders ∧
  ∃ lister, nodeLister = Some lister ∧ List lister = (nodes, None).
Proof.
  destruct (PrioritizeNodes_calls_shape finished scoreOrder pod machinesToPods
              podLister priorityConfigs nodeLister extenders)
    as (asked & -> & Hasked).
  destruct (launchPriorities_log pod machinesToPods podLister nodeLister
              priorityConfigs 0) as [Hmem _].
  intros [(? & ? & ? & _)%Hmem | Hin]%elem_of_app; [done |].
  destruct Hasked as [-> | (lister & nodes' & -> & Hlist & ->)];
    [by apply elem_of_nil in Hin |].
  apply elem_of_lookup_imap in Hin as (j' & ext & [= -> -> ->] & Hext).
  split_and!; [done | by eapply lookup_lt_Some |]. by exists lister.
Qed.

(** X12: the Priority Stage panics exactly when nothing is registered and
    the lister is [nil]; otherwise it returns, and with an error it returns
    the empty ranking. *)
Theorem PrioritizeNodes_returns finished scoreOrder pod machinesToPods
    (podLister : PodLister) priorityConfigs nodeLister extenders :
  let stage :=
    PrioritizeNodes finished scoreOrder pod machinesToPods podLister
                    priorityConfigs nodeLister extenders in
  (outcome stage = Panics ↔
     priorityConfigs = [] ∧ extenders = [] ∧ nodeLister = None)
  ∧ (∀ ranking err,
       outcome stage = Returns (ranking, Some err) → ranking = []).
Proof.
  intros stage. unfold stage, PrioritizeNodes.
  destruct ((length priorityConfigs =? 0)%nat && (length extenders =? 0)%nat)
    eqn:Hspecial.
  - apply andb_true_iff in Hspecial as [Hc%Nat.eqb_eq Hx%Nat.eqb_eq].
    apply nil_length_inv in Hc, Hx. subst. unfold EqualPriority.
    destruct nodeLister as [lister |]; [| by split].
    destruct (List lister) as [nodes [err |]];
      (simpl_M; split;
       [split; [done | by intros (_ & _ & ?)] | intros ? ? ?; by simplify_eq]).
  - assert (Hregistered : ¬ (priorityConfigs = [] ∧ extenders = [] ∧
                             nodeLister = None)).
    { intros (-> & -> & _). done. }
    clear Hspecial.
    destruct (launchPriorities_returns pod machinesToPods podLister nodeLister
                priorityConfigs 0) as (log & tasks & Hlaunch & _).
    rewrite (mbind_Returns _ _ _ _ Hlaunch).
    destruct (negb (length (errsAtCheck finished tasks) =? 0)%nat).
    { simpl_M. split; [by split | intros ? ? ?; by simplify_eq]. }
    destruct (negb (length extenders =? 0)%nat).
    + destruct nodeLister as [lister |].
      * destruct (List lister) as [nodes [err |]] eqn:Hlist.
        -- simpl_M. split; [by split | intros ? ? ?; by simplify_eq].
        -- rewrite (mbind_Returns _ _ _ _ (launchExtenders_calls pod nodes
                                             extenders 0)).
           simpl_M. split; [by split | intros ? ? ?; by simplify_eq].
      * simpl_M. split; [by split | intros ? ? ?; by simplify_eq].
    + simpl_M. split; [by split | intros ? ? ?; by simplify_eq].
Qed.

End PriorityCalls.

Lemma PrioritizeNodes_asks_with_the_listed_witness :
  let lister := Fixtures.listerOf [Fixtures.nodeA] in
  Fixtures.thePod = Fixtures.thePod ∧ 0 < length [Fixtures.keepAll] ∧
  ∃ lister', Some lister = Some lister' ∧
             List lister' = ({| Items := [Fixtures.nodeA] |}, None).
Proof.
  intros lister.
  apply (PrioritizeNodes_asks_with_the_listed [] (λ entries, entries)
           Fixtures.thePod ∅ tt [] (Some lister) [Fixtures.keepAll]).
  assert (Hcalls :
            calls (PrioritizeNodes [] (λ entries, entries) Fixtures.thePod ∅ tt
                                   [] (Some lister) [Fixtures.keepAll])
            = [PrioritizeCall 0 Fixtures.thePod {| Items := [Fixtures.nodeA] |}])
    by (vm_compute; reflexivity).
  rewrite Hcalls. left.
Defined.

(** ** More on the Selector *)

Section BestHosts.

Local Open Scope Z_scope.

Lemma bestHostsFrom_take score0 entries :
  ∃ k : nat,
    bestHostsFrom score0 entries = Host <$> take k entries ∧
    (∀ e, e ∈ take k entries → Score e = score0) ∧
    (∀ e, entries !! k = Some e → Score e ≠ score0).
Proof.
  induction entries as [| hostEntry entries (k & Hhosts & Hequal & Hnext)].
  - exists 0%nat. split_and!; [done | by intros ? ?%elem_of_nil | done].
  - cbn [bestHostsFrom].
    destruct (Z.eqb_spec (Score hostEntry) score0) as [Heq | Hne].
    + exists (S k). cbn [take lookup list_lookup fmap list_fmap].
      split_and!; [by rewrite Hhosts | | done].
      intros e [-> | He]%elem_of_cons; auto.
    + exists 0%nat. cbn [take]. split_and!; [done | by intros ? ?%elem_of_nil |].
      by intros e [= <-].
Qed.

(** X13: [getBestHosts] returns the hosts of the longest prefix of the list
    whose scores all equal the score of the first entry, whether or not
    the list is sorted; on a list that is not empty that is at least the
    first host. *)
Theorem getBestHosts_longest_prefix entries :
  ∃ k : nat,
    getBestHosts entries = Host <$> take k entries ∧
    (∀ e first, e ∈ take k entries → head entries = Some first →
                Score e = Score first) ∧
    (∀ e first, entries !! k = Some e → head entries = Some first →
                Score e ≠ Score first) ∧
    (entries ≠ [] → (0 < k)%nat).
Proof.
  destruct entries as [| first entries].
  - exists 0%nat. split_and!; [done | | done | done].
    by intros ? ? ?%elem_of_nil.
  - destruct (bestHostsFrom_take (Score first) (first :: entries))
      as (k & Hhosts & Hequal & Hnext).
    exists k. unfold getBestHosts. split_and!; [done | | |].
    + intros e ? He [= <-]. by apply Hequal.
    + intros e ? He [= <-]. by apply Hnext.
    + intros _. destruct k as [| k]; [| lia].
      by specialize (Hnext first eq_refl).
Qed.

(** What [getBestHosts] finds in the sorted ranking: the hosts of [best],
    the entries of maximal score. *)
Lemma getBestHosts_sortReverse priorityList :
  priorityList ≠ [] →
  ∃ best rest,
    sortReverse priorityList = best ++ rest ∧
    getBestHosts (sortReverse priorityList) = Host <$> best ∧
    best ≠ [] ∧
    (∀ e other, e ∈ best → other ∈ priorityList → Score other ≤ Score e) ∧
    (∀ e other, e ∈ best → other ∈ rest → Score other < Score e).
Proof.
  intros Hne.
  pose proof (sortReverse_Permutation priorityList) as Hperm.
  pose proof (sortReverse_sorted priorityList) as Hsorted.
  destruct (sortReverse priorityList) as [| first sorted'] eqn:Hsort.
  { symmetry in Hperm. by apply Permutation_nil_r in Hperm. }
  assert (Hmax : ∀ e, e ∈ first :: sorted' → Score e ≤ Score first).
  { intros e [-> | He]%elem_of_cons; [lia |].
    apply StronglySorted_inv in Hsorted as [_ Hhead].
    rewrite Forall_forall in Hhead. exact (Hhead e He). }
  destruct (bestHostsFrom_split (Score first) (first :: sorted') Hsorted Hmax)
    as (best & rest & Hsplit & Hbest & Hall & Hlt).
  exists best, rest. unfold getBestHosts. split_and!; [done | done | | |].
  - intros ->. cbn [app] in Hsplit. specialize (Hlt first).
    rewrite <- Hsplit in Hlt. specialize (Hlt ltac:(left)). lia.
  - intros e other He Hother. rewrite (Hall e He). apply Hmax.
    by rewrite Hperm.
  - intros e other He Hother. rewrite (Hall e He). by apply Hlt.
Qed.

(** X14: every entry of maximal score can win: for each of them some
    draw of the random source makes [selectHost] return its host. *)
Theorem selectHost_reaches_every_best_host priorityList entry :
  entry ∈ priorityList →
  (∀ other, other ∈ priorityList → Score other ≤ Score entry) →
  ∃ random,
    0 ≤ random < Z.of_nat (length priorityList) ∧
    outcome (selectHost random priorityList) = Returns (Host entry, None).
Proof.
  intros Hentry Hmax.
  assert (Hne : priorityList ≠ []).
  { intros ->. by apply elem_of_nil in Hentry. }
  destruct (getBestHosts_sortReverse priorityList Hne)
    as (best & rest & Hsort & Hhosts & Hbest & _ & Hlt).
  assert (Hin : entry ∈ best).
  { pose proof Hentry as Hsorted.
    rewrite <- (sortReverse_Permutation priorityList), Hsort in Hsorted.
    apply elem_of_app in Hsorted as [? | Hrest]; [done | exfalso].
    destruct best as [| b best]; [done |].
    specialize (Hlt b entry ltac:(left) Hrest).
    assert (Hb : b ∈ priorityList).
    { rewrite <- (sortReverse_Permutation priorityList), Hsort.
      apply elem_of_app. left. left. }
    specialize (Hmax b Hb). lia. }
  apply list_elem_of_lookup_1 in Hin as [i Hi].
  pose proof (lookup_lt_Some _ _ _ Hi) as Hlen.
  assert (Hbound : (length best ≤ length priorityList)%nat).
  { rewrite <- (Permutation_length (sortReverse_Permutation priorityList)).
    rewrite Hsort, length_app. lia. }
  exists (Z.of_nat i). split; [lia |].
  unfold selectHost.
  destruct (Nat.eqb_spec (length priorityList) 0) as [Hzero | _].
  { by apply nil_length_inv in Hzero. }
  cbv zeta. rewrite Hhosts, length_fmap.
  destruct (Nat.eqb_spec (length best) 0) as [? | _]; [lia |].
  rewrite Z.rem_small by lia.
  destruct (Z.ltb_spec (Z.of_nat i) 0) as [? | _]; [lia |].
  by rewrite Nat2Z.id, list_lookup_fmap, Hi.
Qed.

End BestHosts.

Lemma selectHost_reaches_every_best_host_witness :
  ∃ random,
    (0 ≤ random < Z.of_nat (length Fixtures.ranking))%Z ∧
    outcome (selectHost random Fixtures.ranking) = Returns ("c", None).
Proof.
  apply (selectHost_reaches_every_best_host Fixtures.ranking
           {| Host := "c"; Score := 7 |}).
  - unfold Fixtures.ranking. do 2 right. left.
  - intros other Hother. unfold Fixtures.ranking in Hother.
    repeat (apply elem_of_cons in Hother as [-> | Hother]; [cbn; lia |]).
    by apply elem_of_nil in Hother.
Defined.

(** ** More on FitError.Error *)

Section ErrorLoop.

Variable pick : list string → list string.
Hypothesis pick_valid : rangeOrder pick.

Lemma PopAny_result (s : gset string) :
  (s = ∅ ∧ sets.PopAny pick s = ((EmptyString, false), s)) ∨
  (∃ key, key ∈ s ∧ sets.PopAny pick s = ((key, true), s ∖ {[key]})).
Proof.
  unfold sets.PopAny. pose proof (pick_valid (elements s)) as Hperm.
  destruct (pick (elements s)) as [| key keys].
  - left. split; [| done]. apply leibniz_equiv, elements_empty_inv.
    symmetry in Hperm. by apply Permutation_nil_r in Hperm.
  - right. exists key. split; [| done].
    apply elem_of_elements. rewrite <- Hperm. left.
Qed.

Lemma length_zero_empty (reason : string) :
  (String.length reason =? 0)%nat = true ↔ reason = EmptyString.
Proof. rewrite Nat.eqb_eq. by destruct reason. Qed.

Lemma ErrorStep_shrinks orig reason failed entry :
  (reason = EmptyString ∨ recordedIn orig reason) → shrunkFrom orig failed →
  let st := ErrorStep pick (reason, failed) entry in
  (st.1 = EmptyString ∨ recordedIn orig st.1) ∧ shrunkFrom orig st.2.
Proof.
  intros Hreason [Hdom Hsub]. cbn [ErrorStep].
  destruct (String.length reason =? 0)%nat; [| done].
  destruct (failed !! entry.1) as [predicateList |] eqn:Hlookup; [| done].
  destruct (Hsub _ _ Hlookup) as (reasons & Horig & Hincl).
  destruct (PopAny_result predicateList) as [[_ ->] | (key & Hkey & ->)].
  - cbn [fst snd]. split; [by left |]. by rewrite insert_id.
  - cbn [fst snd]. split.
    + right. exists entry.1, reasons. split; [done |]. by apply Hincl.
    + split.
      * rewrite dom_insert_L, <- Hdom.
        apply subseteq_union_1_L, singleton_subseteq_l.
        by eapply elem_of_dom_2.
      * intros node remaining.
        destruct (decide (node = entry.1)) as [-> | Hne].
        -- rewrite lookup_insert_eq. intros [= <-]. exists reasons.
           split; [done |]. by apply subseteq_difference_l.
        -- rewrite lookup_insert_ne by done. apply Hsub.
Qed.

Lemma ErrorLoop_shrinks orig entries :
  ∀ reason failed,
    (reason = EmptyString ∨ recordedIn orig reason) → shrunkFrom orig failed →
    let st := foldl (ErrorStep pick) (reason, failed) entries in
    (st.1 = EmptyString ∨ recordedIn orig st.1) ∧ shrunkFrom orig st.2.
Proof.
  induction entries as [| entry entries IH]; intros reason failed Hreason Hshrunk.
  - done.
  - cbn [foldl].
    destruct (ErrorStep_shrinks orig reason failed entry Hreason Hshrunk)
      as [Hreason' Hshrunk'].
    destruct (ErrorStep pick (reason, failed) entry) as [reason' failed'].
    by apply IH.
Qed.

(** X15: [Error] invents no reason and no candidate: the reason its message
    names is the empty string or one of the reasons the failure map held,
    and the failure map it leaves holds the same candidates, each with a
    part of the reasons it had. *)
Theorem Error_names_a_recorded_reason order f :
  ∃ reason failed,
    Error order pick f
    = ("Failed for reason " +:+ reason +:+ " and possibly others",
       {| Pod := Pod f; FailedPredicates := failed |}) ∧
    (reason = EmptyString ∨ recordedIn (FailedPredicates f) reason) ∧
    shrunkFrom (FailedPredicates f) failed.
Proof.
  unfold Error.
  destruct (ErrorLoop_shrinks (FailedPredicates f)
              (order (map_to_list (FailedPredicates f)))
              EmptyString (FailedPredicates f)) as [Hreason Hshrunk].
  { by left. }
  { split; [done |]. intros node remaining ?. by exists remaining. }
  destruct (foldl _ _ _) as [reason failed]. by exists reason, failed.
Qed.

Lemma ErrorLoop_finds_a_reason entries :
  ∀ reason failed,
    NoDup entries.*1 →
    (∀ node reasons, (node, reasons) ∈ entries →
                     failed !! node = Some reasons ∧ EmptyString ∉ reasons) →
    (reason ≠ EmptyString ∨
     ∃ node reasons, (node, reasons) ∈ entries ∧ reasons ≠ ∅) →
    (foldl (ErrorStep pick) (reason, failed) entries).1 ≠ EmptyString.
Proof.
  induction entries as [| [node reasons] entries IH];
    intros reason failed Hnodup Hagree Hsome.
  - destruct Hsome as [? | (? & ? & []%elem_of_nil & _)]. done.
  - cbn [foldl ErrorStep fst]. cbn [fmap list_fmap fst] in Hnodup.
    apply NoDup_cons in Hnodup as [Hfresh Hnodup].
    destruct (String.length reason =? 0)%nat eqn:Hlen.
    + apply length_zero_empty in Hlen. subst reason.
      destruct (Hagree node reasons ltac:(left)) as [-> Hnonempty].
      destruct (PopAny_result reasons) as [[-> ->] | (key & Hkey & ->)].
      * apply IH; [done | |].
        -- intros node' reasons' Hin.
           rewrite insert_id by (by apply Hagree; left).
           apply Hagree. by right.
        -- right. destruct Hsome as [? | (node' & reasons' & Hin & Hne)];
             [done |].
           apply elem_of_cons in Hin as [[= -> ->] | Hin]; [done |].
           by exists node', reasons'.
      * apply IH; [done | |].
        -- intros node' reasons' Hin.
           rewrite lookup_insert_ne; [apply Hagree; by right |].
           intros <-. apply Hfresh. apply list_elem_of_fmap.
           by exists (node, reasons').
        -- left. intros ->. done.
    + apply IH; [done | |].
      * intros node' reasons' Hin. apply Hagree. by right.
      * left. intros ->. done.
Qed.

(** X16: when no recorded reason is the empty string and some candidate has
    a reason recorded, the message of [Error] names a reason, whatever the
    order of the [range] over the failure map. *)
Theorem Error_names_a_reason_if_there_is_one order f node reasons :
  rangeOrder order →
  (∀ node reasons, FailedPredicates f !! node = Some reasons →
                   EmptyString ∉ reasons) →
  FailedPredicates f !! node = Some reasons → reasons ≠ ∅ →
  ∃ reason,
    reason ≠ EmptyString ∧ recordedIn (FailedPredicates f) reason ∧
    (Error order pick f).1
    = "Failed for reason " +:+ reason +:+ " and possibly others".
Proof.
  intros Horder Hnonempty Hnode Hreasons.
  pose proof (ErrorLoop_finds_a_reason
                (order (map_to_list (FailedPredicates f)))
                EmptyString (FailedPredicates f)) as Hfound.
  destruct (ErrorLoop_shrinks (FailedPredicates f)
              (order (map_to_list (FailedPredicates f)))
              EmptyString (FailedPredicates f)) as [Hreason _].
  { by left. }
  { split; [done |]. intros node' remaining ?. by exists remaining. }
  unfold Error.
  destruct (foldl _ _ _) as [reason failed]. cbn [fst] in *.
  assert (Hne : reason ≠ EmptyString).
  { apply Hfound.
    - rewrite (Horder _). apply NoDup_fst_map_to_list.
    - intros node' reasons' Hin. rewrite (Horder _) in Hin.
      apply elem_of_map_to_list in Hin. split; [done |]. by eapply Hnonempty.
    - right. exists node, reasons. split; [| done].
      rewrite (Horder _). by apply elem_of_map_to_list. }
  exists reason. split_and!; [done | | done].
  by destruct Hreason.
Qed.

End ErrorLoop.

Lemma Error_names_a_recorded_reason_witness :
  let f := {| Pod := Fixtures.thePod;
              FailedPredicates := {["a" := {["cpu"]}]} |} in
  ∃ reason failed,
    Error (λ entries, entries) (λ keys, keys) f
    = ("Failed for reason " +:+ reason +:+ " and possibly others",
       {| Pod := Pod f; FailedPredicates := failed |}) ∧
    (reason = EmptyString ∨ recordedIn (FailedPredicates f) reason) ∧
    shrunkFrom (FailedPredicates f) failed.
Proof.
  intros f.
  apply (Error_names_a_recorded_reason (λ keys, keys)).
  intros keys. reflexivity.
Defined.

Lemma Error_names_a_reason_if_there_is_one_witness :
  let f := {| Pod := Fixtures.thePod;
              FailedPredicates := {["a" := {["cpu"]}]} |} in
  ∃ reason,
    reason ≠ EmptyString ∧ recordedIn (FailedPredicates f) reason ∧
    (Error (λ entries, entries) (λ keys, keys) f).1
    = "Failed for reason " +:+ reason +:+ " and possibly others".
Proof.
  intros f.
  apply (Error_names_a_reason_if_there_is_one (λ keys, keys)
           ltac:(intros keys; reflexivity) (λ entries, entries) f
           "a" {["cpu"]}).
  - intros entries. reflexivity.
  - intros node reasons Hlookup. unfold f in Hlookup. cbn [FailedPredicates] in Hlookup.
    apply lookup_singleton_Some in Hlookup as [_ <-].
    intros Hin%elem_of_singleton. discriminate Hin.
  - apply lookup_singleton_eq.
  - apply non_empty_singleton_L.
Defined.

(** ** The scheduling algorithm, end to end *)

(** A host [selectHost] returns is the host of an entry of maximal score,
    whatever the draw. *)
Lemma selectHost_returns_best random priorityList host :
  outcome (selectHost random priorityList) = Returns (host, None) →
  ∃ entry,
    entry ∈ priorityList ∧ Host entry = host ∧
    ∀ other, other ∈ priorityList → (Score other ≤ Score entry)%Z.
Proof.
  unfold selectHost.
  destruct (Nat.eqb_spec (length priorityList) 0) as [| Hlen]; [done |].
  assert (Hne : priorityList ≠ []) by (by intros ->).
  destruct (getBestHosts_sortReverse priorityList Hne)
    as (best & rest & Hsort & -> & _ & Hmax & _).
  cbv zeta.
  destruct (length (Host <$> best) =? 0)%nat; [done |].
  destruct (Z.rem random _ <? 0)%Z; [done |].
  rewrite list_lookup_fmap.
  destruct (best !! _) as [entry |] eqn:Hentry; [| done].
  intros [= <-]. apply list_elem_of_lookup_2 in Hentry.
  exists entry. split_and!; [| done | intros other ?; by apply Hmax].
  rewrite <- (sortReverse_Permutation priorityList), Hsort.
  apply elem_of_app. by left.
Qed.

Section PriorityStageReturns.

Context {PodLister : Type}.

Lemma PrioritizeNodes_lister_returns finished scoreOrder pod machinesToPods
    (podLister : PodLister) priorityConfigs lister extenders :
  ∃ log ranking err,
    PrioritizeNodes finished scoreOrder pod machinesToPods podLister
                    priorityConfigs (Some lister) extenders
    = (log, Returns (ranking, err)).
Proof.
  unfold PrioritizeNodes.
  destruct ((length priorityConfigs =? 0)%nat && (length extenders =? 0)%nat).
  - unfold EqualPriority.
    destruct (List lister) as [nodes [err |]]; by eexists _, _, _.
  - destruct (launchPriorities_returns pod machinesToPods podLister
                (Some lister) priorityConfigs 0) as (log & tasks & Hlaunch & _).
    rewrite (mbind_Returns _ _ _ _ Hlaunch).
    destruct (negb (length (errsAtCheck finished tasks) =? 0)%nat);
      [by eexists _, _, _ |].
    destruct (negb (length extenders =? 0)%nat).
    + destruct (List lister) as [nodes [err |]] eqn:Hlist.
      * simpl_M. by eexists _, _, _.
      * rewrite (mbind_Returns _ _ _ _ (launchExtenders_calls pod nodes
                                          extenders 0)).
        simpl_M. by eexists _, _, _.
    + simpl_M. by eexists _, _, _.
Qed.

Lemma launchPriorities_zero_weights pod machinesToPods (podLister : PodLister)
    nodeLister priorityConfigs :
  Forall (λ config, Weight config = 0%Z) priorityConfigs →
  ∀ i, launchPriorities pod machinesToPods podLister nodeLister i
                        priorityConfigs
       = mret [].
Proof.
  induction 1 as [| config configs Hzero _ IH]; intros i; [done |].
  cbn [launchPriorities]. by rewrite Hzero, IH.
Qed.

End PriorityStageReturns.

Section ScheduleEndToEnd.

Context {PodLister : Type}.
Variable MapPodsToMachines :
  PodLister → gmap string (list api.Pod) * option error.

(** An attempt that gets through the Filter Stage with survivors ends as
    the Priority Stage and the Selector end. *)
Lemma Schedule_stages nd (g : genericScheduler) pod nodeLister nodes
    machinesToPods log survivors failedPredicateMap :
  List nodeLister = (nodes, None) →
  MapPodsToMachines (pods g) = (machinesToPods, None) →
  findNodesThatFit (predicateOrder nd) pod machinesToPods (predicates g)
                   nodes (extenders g)
  = (log, Returns (survivors, failedPredicateMap, None)) →
  ∀ host,
    outcome (Schedule MapPodsToMachines nd g pod nodeLister)
    = Returns (host, None) →
    Items survivors ≠ [] ∧
    ∃ ranking,
      outcome (PrioritizeNodes (finishedAtCheck nd) (scoreOrder nd) pod
                               machinesToPods (pods g) (prioritizers g)
                               (Some (FakeNodeLister survivors)) (extenders g))
      = Returns (ranking, None) ∧
      outcome (selectHost (random g) ranking) = Returns (host, None).
Proof.
  intros Hlist HmapPods Hfilter host. unfold Schedule. rewrite Hlist.
  destruct (length (Items nodes) =? 0)%nat; [done |].
  rewrite HmapPods, (mbind_Returns _ _ _ _ Hfilter). cbv beta iota.
  destruct (Nat.eqb_spec (length (Items survivors)) 0) as [| Hlen]; [done |].
  destruct (PrioritizeNodes_lister_returns (finishedAtCheck nd) (scoreOrder nd)
              pod machinesToPods (pods g) (prioritizers g)
              (FakeNodeLister survivors) (extenders g))
    as (plog & ranking & err & ->).
  rewrite mbind_pair. cbv beta iota. cbn [outcome snd].
  destruct err as [err |]; [done |]. intros Hselect.
  split; [by intros Hnil; rewrite Hnil in Hlen |]. by exists ranking.
Qed.

(** X17: with a random source that draws no negative number, an attempt of
    [Schedule] returns, and the host it returns with an error is the
    empty name. *)
Theorem Schedule_returns_a_host_or_an_error nd (g : genericScheduler) pod
    nodeLister :
  (0 ≤ random g)%Z →
  ∃ host err,
    outcome (Schedule MapPodsToMachines nd g pod nodeLister)
    = Returns (host, err) ∧
    (err ≠ None → host = EmptyString).
Proof.
  intros Hrandom. unfold Schedule.
  destruct (List nodeLister) as [nodes [err |]]; [by eexists _, _ |].
  destruct (length (Items nodes) =? 0)%nat; [by eexists _, _ |].
  destruct (MapPodsToMachines (pods g)) as [machinesToPods [err |]];
    [by eexists _, _ |].
  destruct (findNodesThatFit_returns (predicateOrder nd) pod machinesToPods
              (predicates g) nodes (extenders g))
    as (log & survivors & failedPredicateMap & err & -> & _).
  rewrite mbind_pair. cbv beta iota.
  destruct err as [err |]; [by eexists _, _ |].
  destruct (length (Items survivors) =? 0)%nat; [by eexists _, _ |].
  destruct (PrioritizeNodes_lister_returns (finishedAtCheck nd) (scoreOrder nd)
              pod machinesToPods (pods g) (prioritizers g)
              (FakeNodeLister survivors) (extenders g))
    as (plog & ranking & err & ->).
  rewrite mbind_pair. cbv beta iota. cbn [outcome snd].
  destruct err as [err |]; [by eexists _, _ |].
  destruct ranking as [| e ranking].
  - rewrite selectHost_empty. by eexists _, _.
  - destruct (selectHost_nonempty (random g) (e :: ranking) Hrandom)
      as (_ & _ & entry & _ & _ & _ & _ & ->); [done |].
    by eexists _, _.
Qed.

(** X18: a scheduler without priority configs and without extenders returns
    only the name of a candidate that every predicate fits. *)
Theorem Schedule_default_picks_a_fitting_node nd (g : genericScheduler) pod
    nodeLister nodes machinesToPods host :
  prioritizers g = [] → extenders g = [] →
  (∀ i, rangeOrder (predicateOrder nd i)) →
  List nodeLister = (nodes, None) →
  MapPodsToMachines (pods g) = (machinesToPods, None) →
  outcome (Schedule MapPodsToMachines nd g pod nodeLister)
  = Returns (host, None) →
  ∃ node,
    node ∈ Items nodes ∧ Name node = host ∧
    fitsAllb pod machinesToPods (predicates g) host = true.
Proof.
  intros Hprioritizers Hextenders Horder Hlist HmapPods Hhost.
  destruct (findNodesThatFit_returns (predicateOrder nd) pod machinesToPods
              (predicates g) nodes (extenders g))
    as (log & survivors & failedPredicateMap & err & Hfilter & _).
  destruct err as [err |].
  { exfalso. revert Hhost. unfold Schedule. rewrite Hlist.
    destruct (length (Items nodes) =? 0)%nat; [done |].
    by rewrite HmapPods, (mbind_Returns _ _ _ _ Hfilter). }
  destruct (Schedule_stages nd g pod nodeLister nodes machinesToPods log
              survivors failedPredicateMap Hlist HmapPods Hfilter host Hhost)
    as (_ & ranking & Hranking & Hselect).
  destruct (findNodesThatFit_survivors (predicateOrder nd) pod machinesToPods
              (predicates g) Horder nodes (extenders g) survivors
              failedPredicateMap) as [Hsurvivors _].
  { by rewrite Hfilter. }
  specialize (Hsurvivors Hextenders).
  rewrite Hprioritizers, Hextenders in Hranking.
  cbn in Hranking. injection Hranking as <-.
  destruct (selectHost_returns_best _ _ _ Hselect) as (entry & Hentry & <- & _).
  apply list_elem_of_fmap in Hentry as (node & -> & Hnode).
  rewrite Hsurvivors in Hnode. apply list_elem_of_In, filter_In in Hnode
    as [Hnode Hfits].
  exists node. split_and!; [by apply list_elem_of_In | done | done].
Qed.

(** X19: a scheduler whose priority configs all have weight zero, and that
    has no extender, never returns a host: when nodes survive the Filter
    Stage the ranking is empty, and the attempt ends with the error of the
    empty priority list. *)
Theorem Schedule_zero_weights_rank_nothing nd (g : genericScheduler) pod
    nodeLister :
  prioritizers g ≠ [] →
  Forall (λ config, Weight config = 0%Z) (prioritizers g) →
  extenders g = [] →
  rangeOrder (scoreOrder nd) →
  ∃ err,
    outcome (Schedule MapPodsToMachines nd g pod nodeLister)
    = Returns (EmptyString, Some err) ∧
    ∀ nodes machinesToPods survivors failedPredicateMap,
      List nodeLister = (nodes, None) →
      MapPodsToMachines (pods g) = (machinesToPods, None) →
      outcome (findNodesThatFit (predicateOrder nd) pod machinesToPods
                                (predicates g) nodes (extenders g))
      = Returns (survivors, failedPredicateMap, None) →
      Items survivors ≠ [] →
      err = ErrEmptyPriorityList.
Proof.
  intros Hregistered Hweights Hextenders Horder.
  assert (Hstage : ∀ machinesToPods lister,
    PrioritizeNodes (finishedAtCheck nd) (scoreOrder nd) pod machinesToPods
                    (pods g) (prioritizers g) lister (extenders g)
    = mret ([], None)).
  { intros machinesToPods lister. unfold PrioritizeNodes.
    rewrite Hextenders.
    destruct (prioritizers g) as [| config configs] eqn:Hconfigs; [done |].
    cbn [length Nat.eqb andb]. rewrite <- Hconfigs in *. clear Hconfigs.
    rewrite (launchPriorities_zero_weights _ _ _ _ _ Hweights), mbind_mret.
    unfold errsAtCheck.
    assert (Herrs : omap (λ j : nat,
               match ([] : list (Z * (HostPriorityList * option error))) !! j with
               | Some (_, (_, Some err)) => Some err
               | _ => None
               end) (finishedAtCheck nd) = []).
    { induction (finishedAtCheck nd) as [| j js IH]; [done |].
      cbn [omap list_omap]. by rewrite lookup_nil. }
    rewrite Herrs. cbn [length Nat.eqb negb]. rewrite mbind_mret.
    unfold joinPriorities. cbn [foldl].
    by rewrite map_to_list_empty, (rangeOrder_nil _ Horder). }
  unfold Schedule.
  destruct (List nodeLister) as [nodes [err |]];
    [exists err; split; [done |]; intros ? ? ? ? ?; by simplify_eq |].
  destruct (Nat.eqb_spec (length (Items nodes)) 0) as [Hnone | Hsome].
  { exists ErrNoNodesAvailable. split; [done |].
    intros nodes' machinesToPods survivors failedPredicateMap [= <-] _ Hfilter
           Hsurvivors.
    exfalso. apply nil_length_inv in Hnone.
    revert Hfilter. unfold findNodesThatFit. rewrite Hnone.
    cbn. intros [= <- _]. done. }
  destruct (MapPodsToMachines (pods g)) as [machinesToPods [err |]];
    [exists err; split; [done |]; intros ? ? ? ? _ ?; by simplify_eq |].
  destruct (findNodesThatFit_returns (predicateOrder nd) pod machinesToPods
              (predicates g) nodes (extenders g))
    as (log & survivors & failedPredicateMap & err & Hfilter & _).
  rewrite Hfilter, mbind_pair. cbv beta iota.
  destruct err as [err |].
  { exists err. split; [done |].
    intros ? ? ? ? [= <-] [= <-] Hout. by rewrite Hfilter in Hout. }
  destruct (Nat.eqb_spec (length (Items survivors)) 0) as [Hnil | _].
  { eexists. split; [done |].
    intros ? ? ? ? [= <-] [= <-] Hout Hne. rewrite Hfilter in Hout.
    injection Hout as <- _. by apply nil_length_inv in Hnil. }
  rewrite Hstage, mbind_mret. cbv beta iota.
  exists ErrEmptyPriorityList. by split.
Qed.

(** X20: with priority configs or extenders registered, a host that
    [Schedule] returns is listed by a priority function or an extender and
    has the highest combined score of all the hosts they list. *)
Theorem Schedule_picks_a_highest_score nd (g : genericScheduler) pod nodeLister
    nodes machinesToPods log survivors failedPredicateMap host :
  List nodeLister = (nodes, None) →
  MapPodsToMachines (pods g) = (machinesToPods, None) →
  findNodesThatFit (predicateOrder nd) pod machinesToPods (predicates g)
                   nodes (extenders g)
  = (log, Returns (survivors, failedPredicateMap, None)) →
  prioritizers g ≠ [] ∨ extenders g ≠ [] →
  rangeOrder (scoreOrder nd) →
  errsAtCheck (finishedAtCheck nd)
    (priorityAnswers pod machinesToPods (pods g)
                     (Some (FakeNodeLister survivors)) (prioritizers g))
  = [] →
  outcome (Schedule MapPodsToMachines nd g pod nodeLister)
  = Returns (host, None) →
  let answers :=
    priorityAnswers pod machinesToPods (pods g)
                    (Some (FakeNodeLister survivors)) (prioritizers g)
    ++ extenderAnswers pod survivors (extenders g) in
  existsb (reportsHost host) answers = true ∧
  ∀ other,
    existsb (reportsHost other) answers = true →
    (wrap64 (combinedSum other answers) ≤ wrap64 (combinedSum host answers))%Z.
Proof.
  intros Hlist HmapPods Hfilter Hregistered Horder Herrs Hhost answers.
  destruct (Schedule_stages nd g pod nodeLister nodes machinesToPods log
              survivors failedPredicateMap Hlist HmapPods Hfilter host Hhost)
    as (_ & ranking & Hranking & Hselect).
  destruct (PrioritizeNodes_ranks (finishedAtCheck nd) (scoreOrder nd) pod
              machinesToPods (pods g) (prioritizers g)
              (FakeNodeLister survivors) survivors (extenders g)
              Hregistered Horder eq_refl Herrs)
    as (ranking' & Hranking' & _ & Hentries).
  rewrite Hranking in Hranking'. injection Hranking' as <-.
  destruct (selectHost_returns_best _ _ _ Hselect)
    as ([h score] & Hentry & Hname & Hmax).
  cbn [Host] in Hname. subst h.
  apply Hentries in Hentry as [Hreported ->]. split; [done |].
  intros other Hother.
  apply (Hmax {| Host := other;
                 Score := wrap64 (combinedSum other answers) |}).
  by apply Hentries.
Qed.

End ScheduleEndToEnd.

Lemma Schedule_returns_a_host_or_an_error_witness :
  let g := {| predicates := {["NoDiskConflict" := Fixtures.notOnB]};
              prioritizers := []; extenders := []; pods := tt; random := 7 |} in
  ∃ host err,
    outcome (Schedule Fixtures.noPods Fixtures.inOrder g Fixtures.thePod
                      (Fixtures.listerOf [Fixtures.nodeA; Fixtures.nodeB]))
    = Returns (host, err) ∧
    (err ≠ None → host = EmptyString).
Proof.
  intros g.
  apply (Schedule_returns_a_host_or_an_error Fixtures.noPods Fixtures.inOrder g).
  cbn. lia.
Defined.

Lemma Schedule_default_picks_a_fitting_node_witness :
  let g := {| predicates := {["NoDiskConflict" := Fixtures.notOnB]};
              prioritizers := []; extenders := []; pods := tt; random := 7 |} in
  let nodes := {| Items := [Fixtures.nodeA; Fixtures.nodeB] |} in
  ∃ node,
    node ∈ Items nodes ∧ Name node = "a" ∧
    fitsAllb Fixtures.thePod ∅ (predicates g) "a" = true.
Proof.
  intros g nodes.
  apply (Schedule_default_picks_a_fitting_node Fixtures.noPods Fixtures.inOrder
           g Fixtures.thePod
           (Fixtures.listerOf [Fixtures.nodeA; Fixtures.nodeB]) nodes ∅ "a").
  - reflexivity.
  - reflexivity.
  - intros i entries. reflexivity.
  - reflexivity.
  - reflexivity.
  - vm_compute. reflexivity.
Defined.

Lemma Schedule_zero_weights_rank_nothing_witness :
  let g := {| predicates := {["NoDiskConflict" := Fixtures.notOnB]};
              prioritizers := [ {| Function := Fixtures.preferAll;
                                   Weight := 0 |} ];
              extenders := []; pods := tt; random := 7 |} in
  ∃ err,
    outcome (Schedule Fixtures.noPods Fixtures.inOrder g Fixtures.thePod
                      (Fixtures.listerOf [Fixtures.nodeA; Fixtures.nodeB]))
    = Returns (EmptyString, Some err) ∧
    ∀ nodes machinesToPods survivors failedPredicateMap,
      List (Fixtures.listerOf [Fixtures.nodeA; Fixtures.nodeB])
      = (nodes, None) →
      Fixtures.noPods (pods g) = (machinesToPods, None) →
      outcome (findNodesThatFit (predicateOrder Fixtures.inOrder)
                                Fixtures.thePod machinesToPods
                                (predicates g) nodes (extenders g))
      = Returns (survivors, failedPredicateMap, None) →
      Items survivors ≠ [] →
      err = ErrEmptyPriorityList.
Proof.
  intros g.
  apply (Schedule_zero_weights_rank_nothing Fixtures.noPods Fixtures.inOrder g).
  - discriminate.
  - constructor; [reflexivity | constructor].
  - reflexivity.
  - intros entries. reflexivity.
Defined.

Lemma Schedule_picks_a_highest_score_witness :
  let g := {| predicates := {["NoDiskConflict" := Fixtures.notOnB]};
              prioritizers := [ {| Function := Fixtures.preferAll;
                                   Weight := 2 |} ];
              extenders := []; pods := tt; random := 7 |} in
  let survivors := {| Items := [Fixtures.nodeA] |} in
  let answers :=
    priorityAnswers Fixtures.thePod ∅ (pods g)
                    (Some (FakeNodeLister survivors)) (prioritizers g)
    ++ extenderAnswers Fixtures.thePod survivors (extenders g) in
  existsb (reportsHost "a") answers = true ∧
  ∀ other,
    existsb (reportsHost other) answers = true →
    (wrap64 (combinedSum other answers) ≤ wrap64 (combinedSum "a" answers))%Z.
Proof.
  intros g survivors answers.
  assert (Hfilter :
            findNodesThatFit (predicateOrder Fixtures.inOrder) Fixtures.thePod ∅
                             (predicates g)
                             {| Items := [Fixtures.nodeA; Fixtures.nodeB] |}
                             (extenders g)
            = ([ PredicateCall "NoDiskConflict" Fixtures.thePod [] "a";
                 PredicateCall "NoDiskConflict" Fixtures.thePod [] "b" ],
               Returns (survivors, {["b" := {["NoDiskConflict"]}]}, None)))
    by (vm_compute; reflexivity).
  apply (Schedule_picks_a_highest_score Fixtures.noPods Fixtures.inOrder g
           Fixtures.thePod
           (Fixtures.listerOf [Fixtures.nodeA; Fixtures.nodeB])
           _ _ _ _ _ "a" eq_refl eq_refl Hfilter).
  - left. discriminate.
  - intros entries. reflexivity.
  - reflexivity.
  - vm_compute. reflexivity.
Defined.
